(** * scripts/runners/dcgan.py: the augmentation wrapper and the runner hooks

    A shallow embedding of [AugWrapper] (random crop-and-resize, random
    horizontal flip, forward) and of the parts of [Runner] that build the
    repeated dataset and the plotting hook.

    Conventions of the embedding.
    - A Python [float] is an exact rational ([Qc]); [int(x)] truncates
      towards zero.  Rounding of the floating-point operations is not
      modelled.
    - A [torch.Tensor] of rank 4 is a shape together with its nested
      rows; tensor objects live in a store of storages, an indexing
      expression is a view on the storage of its base, [clone], [flip]
      and [interpolate] allocate.
    - [np.random.random()] pops the next element of a stream of draws
      that is part of the state.
    - Exceptions are results: a computation returns [Ok v] or [Raise e],
      together with the state reached. *)

From Stdlib Require Import ZArith QArith Qcanon Qround List Lia.
From stdpp Require Import base numbers option list strings gmap fin_maps.

Set Default Proof Using "Type".
Local Open Scope Z_scope.

(** ** Python values and exceptions *)

Module Py.

Inductive exn : Set :=
| TypeError
| ZeroDivisionError
| AssertionError
| RuntimeError
| IndexError
| ValueError
| InvalidHandle.

Inductive result (A : Type) : Type :=
| Ok (a : A)
| Raise (e : exn).
Arguments Ok {A} a.
Arguments Raise {A} e.

(** [int(x)] on a float: truncation towards zero. *)
Definition int (x : Qc) : Z :=
  Z.quot (Qnum (this x)) (Zpos (Qden (this x))).

(** An integer used as a float. *)
Definition float (n : Z) : Qc := Qc_of_Z n.

(** [a % b] on integers. *)
Definition mod_ (a b : Z) : result Z :=
  if b =? 0 then Raise ZeroDivisionError else Ok (a mod b).

(** The bound [i] of a slice of a sequence of length [len]: a negative
    bound counts from the end, and every bound is clamped to
    [0 .. len]. *)
Definition slice_bound (len i : Z) : Z :=
  if i <? 0 then Z.max 0 (i + len) else Z.min i len.

Definition slice_len (len start stop : Z) : nat :=
  Z.to_nat (slice_bound len stop - slice_bound len start).

(** [l[start:stop]] *)
Definition slice {A} (start stop : Z) (l : list A) : list A :=
  let len := Z.of_nat (length l) in
  take (slice_len len start stop) (drop (Z.to_nat (slice_bound len start)) l).

(** [[x] * n] *)
Definition list_mul {A} (l : list A) (n : Z) : list A :=
  mjoin (replicate (Z.to_nat n) l).

End Py.
Export Py.

(** ** torch: rank-4 tensors *)

Module torch.

Definition Shape : Type := (nat * nat * nat * nat)%type.

(** [data] is indexed batch, channel, row, column. *)
Record Tensor : Type := mkTensor {
  shape : Shape;
  data : list (list (list (list Qc)))
}.

Definition plane_shaped (h w : nat) (ch : list (list Qc)) : Prop :=
  length ch = h ∧ Forall (λ row, length row = w) ch.

Definition well_shaped (t : Tensor) : Prop :=
  let '(b, c, h, w) := shape t in
  length (data t) = b ∧
  Forall (λ img, length img = c ∧ Forall (plane_shaped h w) img) (data t).

(** [images.shape[-1]] *)
Definition width (t : Tensor) : nat := let '(_, _, _, w) := shape t in w.

(** [torch.flip(t, dims=(3,))] *)
Definition flip3 (t : Tensor) : Tensor :=
  {| shape := shape t;
     data := map (map (map (@rev Qc))) (data t) |}.

(** [t[..., h0:h1, w0:w1]], as a value. *)
Definition window : Type := (Z * Z * Z * Z)%type.

Definition index_hw (t : Tensor) (win : window) : Tensor :=
  let '(h0, h1, w0, w1) := win in
  let '(b, c, h, w) := shape t in
  {| shape := (b, c, slice_len (Z.of_nat h) h0 h1, slice_len (Z.of_nat w) w0 w1);
     data := map (map (λ ch, map (slice w0 w1) (slice h0 h1 ch))) (data t) |}.

(** [t[:n]] along the batch dimension. *)
Definition index_batch (t : Tensor) (n : Z) : Tensor :=
  let '(b, c, h, w) := shape t in
  {| shape := (slice_len (Z.of_nat b) 0 n, c, h, w);
     data := slice 0 n (data t) |}.

Definition map_pixels (f : Qc → Qc) (t : Tensor) : Tensor :=
  {| shape := shape t; data := map (map (map (map f))) (data t) |}.

(** [t + x] and [t.clamp(lo, hi)] *)
Definition add_scalar (t : Tensor) (x : Qc) : Tensor :=
  map_pixels (λ p, (p + x)%Qc) t.

Definition clamp1 (lo hi p : Qc) : Qc :=
  if decide (p < lo)%Qc then lo else if decide (hi < p)%Qc then hi else p.

Definition clamp (t : Tensor) (lo hi : Qc) : Tensor :=
  map_pixels (clamp1 lo hi) t.

(** *** [F.interpolate(t, size=(oh, ow), mode="bilinear", align_corners=True)] *)

(** The source coordinate of output index [i]: with aligned corners
    the scale is [(in - 1) / (out - 1)], and [0] for a single output
    pixel. *)
Definition area_scale (in_size out_size : nat) : Qc :=
  if (1 <? out_size)%nat
  then (float (Z.of_nat in_size - 1) / float (Z.of_nat out_size - 1))%Qc
  else 0%Qc.

Definition src_index (in_size out_size i : nat) : Qc :=
  (area_scale in_size out_size * float (Z.of_nat i))%Qc.

Definition pixel (ch : list (list Qc)) (i j : nat) : Qc :=
  nth j (nth i ch []) 0%Qc.

Definition bilinear_at (ch : list (list Qc)) (ih iw oh ow i j : nat) : Qc :=
  let h1r := src_index ih oh i in
  let h1 := Z.to_nat (int h1r) in
  let h1p := if (h1 <? ih - 1)%nat then 1%nat else 0%nat in
  let h1l := (h1r - float (Z.of_nat h1))%Qc in
  let h0l := (1 - h1l)%Qc in
  let w1r := src_index iw ow j in
  let w1 := Z.to_nat (int w1r) in
  let w1p := if (w1 <? iw - 1)%nat then 1%nat else 0%nat in
  let w1l := (w1r - float (Z.of_nat w1))%Qc in
  let w0l := (1 - w1l)%Qc in
  (h0l * (w0l * pixel ch h1 w1 + w1l * pixel ch h1 (w1 + w1p))
   + h1l * (w0l * pixel ch (h1 + h1p) w1
            + w1l * pixel ch (h1 + h1p) (w1 + w1p)))%Qc.

Definition resize_plane (ih iw oh ow : nat) (ch : list (list Qc))
  : list (list Qc) :=
  map (λ i, map (λ j, bilinear_at ch ih iw oh ow i j) (seq 0 ow)) (seq 0 oh).

(** The kernel refuses an input or an output without pixels; only the
    batch may be empty. *)
Definition interpolate (t : Tensor) (oh ow : nat) : result Tensor :=
  let '(b, c, h, w) := shape t in
  if ((0 <? c) && (0 <? h) && (0 <? w) && (0 <? oh) && (0 <? ow))%nat
  then Ok {| shape := (b, c, oh, ow);
             data := map (map (resize_plane h w oh ow)) (data t) |}
  else Raise RuntimeError.

End torch.
Export torch.

(** ** Computations with a state and exceptions *)

Definition M (S A : Type) : Type := S → result A * S.

Definition ret {S A} (a : A) : M S A := λ s, (Ok a, s).

Definition bind {S A B} (m : M S A) (k : A → M S B) : M S B :=
  λ s, match m s with
       | (Ok a, s') => k a s'
       | (Raise e, s') => (Raise e, s')
       end.

Definition lift {S A} (r : result A) : M S A := λ s, (r, s).

Declare Scope py_scope.
Delimit Scope py_scope with py.
Notation "x <~ m ;; k" := (bind m (λ x, k))
  (at level 100, m at next level, right associativity) : py_scope.
Notation "m ;;; k" := (bind m (λ _, k))
  (at level 100, right associativity) : py_scope.
Local Open Scope py_scope.

(** ** The store of tensor storages and the random stream *)

(** A tensor object: the storage it reads and the windows applied to it. *)
Record handle : Type := mkHandle {
  storage : positive;
  view : list window
}.

Record State : Type := mkState {
  heap : gmap positive Tensor;
  rng : nat → Qc
}.

Definition deref (σ : gmap positive Tensor) (x : handle) : option Tensor :=
  match σ !! storage x with
  | Some t => Some (foldl index_hw t (view x))
  | None => None
  end.

Definition read (x : handle) : M State Tensor :=
  λ s, match deref (heap s) x with
       | Some t => (Ok t, s)
       | None => (Raise InvalidHandle, s)
       end.

Definition alloc (t : Tensor) : M State handle :=
  λ s, let l := fresh (dom (heap s)) in
       (Ok (mkHandle l []), mkState (<[l := t]> (heap s)) (rng s)).

(** [np.random.random()] *)
Definition np_random : M State Qc :=
  λ s, (Ok (rng s 0%nat), mkState (heap s) (λ k, rng s (S k))).

(** [np.random.uniform(low, high)] *)
Definition np_uniform (low high : Qc) : M State Qc :=
  u <~ np_random ;; ret (low + (high - low) * u)%Qc.

(** [x[..., h0:h1, w0:w1]]: a view, no storage is allocated. *)
Definition getitem_hw (x : handle) (win : window) : M State handle :=
  ret (mkHandle (storage x) (view x ++ [win])).

(** [x.clone()] *)
Definition clone (x : handle) : M State handle :=
  t <~ read x ;; alloc t.

(** [torch.flip(x, dims=(3,))] *)
Definition torch_flip (x : handle) : M State handle :=
  t <~ read x ;; alloc (flip3 t).

(** [F.interpolate(x, size=(oh, ow), mode="bilinear", align_corners=True)] *)
Definition F_interpolate (x : handle) (oh ow : nat) : M State handle :=
  t <~ read x ;; r <~ lift (interpolate t oh ow) ;; alloc r.

(** ** class AugWrapper *)

Module AugWrapper.

Definition Scores : Type := list Qc.

(** The wrapped discriminator is a function of the value of its input. *)
Record t : Type := mk {
  D : Tensor → result Scores;
  prob : Qc
}.

Definition __init__ (D : Tensor → result Scores) (image_size : Z) (prob : Qc) : t :=
  {| D := D; prob := prob |}.

(** Lines 32-42: the side of the input and the window
    [(h0, h1, w0, w1)] that is cut out of it. *)
Definition crop_window (images : handle) (scale : Qc)
  : M State (nat * window) :=
  img <~ read images ;;
  let size := Z.of_nat (width img) in
  let new_size := int (float size * scale) in
  let dsize := size - new_size in
  u <~ np_random ;;
  let h0 := int (u * float dsize) in
  let h1 := h0 + new_size in
  u <~ np_random ;;
  let w0 := int (u * float dsize) in
  let w1 := w0 + new_size in
  ret (width img, (h0, h1, w0, w1)).

(** Lines 44-52: the crop, cloned, is resized to the side of the input. *)
Definition random_crop_and_resize (images : handle) (scale : Qc)
  : M State handle :=
  sw <~ crop_window images scale ;;
  cropped <~ getitem_hw images (snd sw) ;;
  cropped <~ clone cropped ;;
  F_interpolate cropped (fst sw) (fst sw).

Definition random_hflip (tensor : handle) (prob : Qc) : M State handle :=
  u <~ np_random ;;
  if decide (u < prob)%Qc then ret tensor
  else torch_flip tensor.

Definition forward (self : t) (images : handle) (detach : bool)
  : M State Scores :=
  u <~ np_random ;;
  images <~ (if decide (u < prob self)%Qc then
               random_scale <~ np_uniform (Q2Qc (3 # 4)) (Q2Qc (19 # 20)) ;;
               images <~ random_hflip images (Q2Qc (1 # 2)) ;;
               random_crop_and_resize images random_scale
             else ret images) ;;
  img <~ read images ;;
  lift (D self img).

End AugWrapper.

(** ** torch.utils.data.ConcatDataset *)

Module ConcatDataset.
Section Concat.

(** An element of [Dataset] is a reference to a dataset object; [len d]
    is what [len(d)] returns. *)
Variable Dataset : Type.
Variable len : Dataset → Z.

Record t : Type := mk {
  datasets : list Dataset;
  cumulative_sizes : list Z
}.

Fixpoint cumsum_from (s : Z) (sequence : list Dataset) : list Z :=
  match sequence with
  | [] => []
  | e :: rest => let l := len e in (l + s) :: cumsum_from (s + l) rest
  end.

Definition cumsum (sequence : list Dataset) : list Z := cumsum_from 0 sequence.

(** [assert len(datasets) > 0] *)
Definition __init__ (ds : list Dataset) : result t :=
  if (0 <? length ds)%nat
  then Ok {| datasets := ds; cumulative_sizes := cumsum ds |}
  else Raise AssertionError.

(** [self.cumulative_sizes[-1]] *)
Definition __len__ (self : t) : result Z :=
  match last (cumulative_sizes self) with
  | Some n => Ok n
  | None => Raise IndexError
  end.

(** [bisect.bisect_right(a, x)] on a sorted list: the number of leading
    elements that are at most [x]. *)
Fixpoint bisect_right (a : list Z) (x : Z) : nat :=
  match a with
  | [] => 0%nat
  | y :: a' => if x <? y then 0%nat else S (bisect_right a' x)
  end.

(** The dataset and the index in it that [self[idx]] reads:
    [self.datasets[dataset_idx]] and [sample_idx]. *)
Definition locate (self : t) (idx : Z) : result (Dataset * Z) :=
  match __len__ self with
  | Raise e => Raise e
  | Ok n =>
    if (idx <? 0) && (n <? - idx) then Raise ValueError
    else
      let idx := if idx <? 0 then n + idx else idx in
      let dataset_idx := bisect_right (cumulative_sizes self) idx in
      let sample_idx :=
        match dataset_idx with
        | O => idx
        | S k => idx - nth k (cumulative_sizes self) 0
        end in
      match datasets self !! dataset_idx with
      | Some d => Ok (d, sample_idx)
      | None => Raise IndexError
      end
  end.

End Concat.
Arguments mk {Dataset}.
Arguments datasets {Dataset}.
Arguments cumulative_sizes {Dataset}.
Arguments __len__ {Dataset}.
Arguments locate {Dataset}.
End ConcatDataset.

(** ** class Runner *)

Module Runner.

Record Args : Type := mkArgs {
  ds_repeat : Z;
  crop_size : Z;
  aug_prob : Qc;
  plot_every : Z
}.

(** The calls received by the logging sink. *)
Inductive LogCall : Type :=
| add_images (tag : string) (images : Tensor)
| render (iteration : Z).

Record t : Type := mk {
  args : Args;
  last_generated : option Tensor;
  logger : list LogCall
}.

Section Dataset.
Variable Dataset : Type.
Variable len : Dataset → Z.

(** [dataset] is the image folder built by [autofeed]. *)
Definition create_dataset (self : t) (dataset : Dataset)
  : result (ConcatDataset.t Dataset) :=
  ConcatDataset.__init__ Dataset len (list_mul [dataset] (ds_repeat (args self))).

End Dataset.

(** [create_model]: the generator's output slot is reset and the
    discriminator [Dnet] is wrapped. *)
Definition create_model (self : t) (Dnet : Tensor → result AugWrapper.Scores)
  : t * AugWrapper.t :=
  ({| args := args self; last_generated := None; logger := logger self |},
   AugWrapper.__init__ Dnet (crop_size (args self)) (aug_prob (args self))).

(** The forward hook registered on the generator. *)
Definition hook (o : Tensor) : M t unit :=
  λ self, (Ok tt, {| args := args self; last_generated := Some o;
                     logger := logger self |}).

Definition log (c : LogCall) : M t unit :=
  λ self, (Ok tt, {| args := args self; last_generated := last_generated self;
                     logger := logger self ++ [c] |}).

(** [self.last_generated[:n]]: [None] is not subscriptable. *)
Definition last_generated_upto (n : Z) : M t Tensor :=
  λ self, match last_generated self with
          | Some g => (Ok (index_batch g n), self)
          | None => (Raise TypeError, self)
          end.

Definition plot (iteration : Z) : M t unit :=
  λ self,
    (r <~ lift (mod_ iteration (plot_every (args self))) ;;
     if r =? 0 then
       g <~ last_generated_upto 16 ;;
       log (add_images "generated"
              (clamp (add_scalar g (Q2Qc (1 # 2))) 0%Qc 1%Qc)) ;;;
       log (render iteration)
     else ret tt) self.

End Runner.

(** ** The frame of a computation, and small inputs *)

(** [grows m]: running [m] leaves every storage of the initial store as
    it is; it can only add storages. *)
Definition grows {A} (m : M State A) : Prop :=
  ∀ s, heap s ⊆ heap (snd (m s)).

(** The window that [crop_window] computes for an input of side [size]
    from the draws [u0] and [u1]. *)
Definition window_of (size : nat) (scale u0 u1 : Qc) : window :=
  let new_size := int (float (Z.of_nat size) * scale) in
  let dsize := Z.of_nat size - new_size in
  let h0 := int (u0 * float dsize) in
  let w0 := int (u1 * float dsize) in
  (h0, h0 + new_size, w0, w0 + new_size).

(** A batch of one image with one channel. *)
Definition plane (h w : nat) (rows : list (list Qc)) : Tensor :=
  {| shape := (1, 1, h, w)%nat; data := [[rows]] |}.

Definition q (n : Z) (d : positive) : Qc := Q2Qc (n # d).

Definition row01 : Tensor := plane 1 2 [[q 0 1; q 1 1]].

Definition pixel1 : Tensor := plane 1 1 [[q 7 1]].

Definition grid4 : Tensor :=
  plane 4 4 [[q 0 1; q 1 1; q 2 1; q 3 1];
             [q 4 1; q 5 1; q 6 1; q 7 1];
             [q 8 1; q 9 1; q 10 1; q 11 1];
             [q 12 1; q 13 1; q 14 1; q 15 1]].

(** The state with the one storage [t] and every draw equal to [u]. *)
Definition state1 (t : Tensor) (u : Qc) : State :=
  {| heap := {[1%positive := t]}; rng := λ _, u |}.

Definition input1 : handle := {| storage := 1; view := [] |}.

(** A discriminator: the sum of the pixels of each image. *)
Definition sum_pixels (t : Tensor) : result AugWrapper.Scores :=
  Ok (map (λ img, foldr Qcplus 0%Qc (concat (concat img))) (data t)).

Definition runner0 (repeat every : Z) : Runner.t :=
  {| Runner.args := {| Runner.ds_repeat := repeat; Runner.crop_size := 128;
                       Runner.aug_prob := q 1 2; Runner.plot_every := every |};
     Runner.last_generated := None;
     Runner.logger := [] |}.

(** The augmentation branch of [forward] (lines 62-64). *)
Definition augment (images : handle) : M State handle :=
  random_scale <~ np_uniform (Q2Qc (3 # 4)) (Q2Qc (19 # 20)) ;;
  images <~ AugWrapper.random_hflip images (Q2Qc (1 # 2)) ;;
  AugWrapper.random_crop_and_resize images random_scale.

(** The runner of [runner0] once the generator has produced [g]. *)
Definition runner1 (every : Z) (g : Tensor) : Runner.t :=
  {| Runner.args := Runner.args (runner0 1 every);
     Runner.last_generated := Some g;
     Runner.logger := [] |}.

(** ** Pixels of a batch *)

(** [t[ib, ic, i, j]] *)
Definition pixel_at (t : Tensor) (ib ic i j : nat) : Qc :=
  pixel (nth ic (nth ib (data t) []) []) i j.

(** Every pixel of [t] lies between [lo] and [hi]. *)
Definition pixels_in (lo hi : Qc) (t : Tensor) : Prop :=
  Forall (Forall (Forall (Forall (λ p, lo ≤ p ∧ p ≤ hi)%Qc))) (data t).

(** [torch.full((b, c, h, w), v)]: the batch whose pixels all are [v]. *)
Definition full (b c h w : nat) (v : Qc) : Tensor :=
  {| shape := (b, c, h, w);
     data := replicate b (replicate c (replicate h (replicate w v))) |}.

(** * Properties *)

(** ** Truncation and slices *)

Section Arithmetic.
Local Open Scope Qc_scope.

Lemma int_floor (x : Qc) : 0 ≤ x → int x = Qfloor (this x).
Proof.
  intros Hx. unfold int, Qfloor. destruct x as [[n d] Hc]; simpl in *.
  apply Z.quot_div_nonneg; [|lia].
  unfold Qcle, Qle in Hx; simpl in Hx. lia.
Qed.

Lemma int_float (n : Z) : int (float n) = n.
Proof. unfold int, float, Qc_of_Z; simpl. apply Z.quot_1_r. Qed.

Lemma int_nonneg (x : Qc) : 0 ≤ x → (0 ≤ int x)%Z.
Proof.
  intros Hx. rewrite int_floor by done.
  change 0%Z with (Qfloor 0). apply Qfloor_resp_le. exact Hx.
Qed.

Lemma int_lt (x : Qc) (m : Z) : 0 ≤ x → x < float m → (int x < m)%Z.
Proof.
  intros Hx Hm. rewrite int_floor by done. rewrite Zlt_Qlt.
  eapply Qle_lt_trans; [apply Qfloor_le|]. exact Hm.
Qed.

Lemma float_nonneg (n : Z) : (0 ≤ n)%Z → 0 ≤ float n.
Proof. intros Hn. unfold float. rewrite <-Z2Qc_inj_0. exact (proj1 (Z2Qc_inj_le 0 n) Hn). Qed.

Lemma float_pos (n : Z) : (0 < n)%Z → 0 < float n.
Proof. intros Hn. unfold float. rewrite <-Z2Qc_inj_0. exact (proj1 (Z2Qc_inj_lt 0 n) Hn). Qed.

(** A draw of the unit interval scaled by [d >= 1] truncates below [d]. *)
Lemma int_scaled_draw (u : Qc) (d : Z) :
  0 ≤ u → u < 1 → (1 ≤ d)%Z → (0 ≤ int (u * float d) < d)%Z.
Proof.
  intros Hu0 Hu1 Hd.
  assert (0 < float d) as Hfd by (apply float_pos; lia).
  assert (0 ≤ u * float d) as Hnn
    by (apply Qcmult_nonneg_nonneg; [done | by apply Qclt_le_weak]).
  split; [by apply int_nonneg|].
  apply int_lt; [done|].
  rewrite <-(Qcmult_1_l (float d)) at 2.
  by apply Qcmult_lt_mono_pos_r.
Qed.

Lemma int_scaled_zero (u : Qc) : int (u * float 0) = 0%Z.
Proof.
  unfold float. rewrite Z2Qc_inj_0, Qcmult_0_r. reflexivity.
Qed.

End Arithmetic.

Section Slices.
Context {A : Type}.
Implicit Types l : list A.

Lemma slice_bound_range (len i : Z) :
  0 ≤ len → 0 ≤ slice_bound len i ≤ len.
Proof. intros Hl. unfold slice_bound. destruct (i <? 0) eqn:E; lia. Qed.

Lemma slice_bound_in (len i : Z) : 0 ≤ i ≤ len → slice_bound len i = i.
Proof.
  intros Hi. unfold slice_bound.
  destruct (i <? 0) eqn:E; [apply Z.ltb_lt in E|]; lia.
Qed.

Lemma slice_len_in (len a b : Z) :
  0 ≤ a → a ≤ b → b ≤ len → slice_len len a b = Z.to_nat (b - a).
Proof.
  intros. unfold slice_len. rewrite !slice_bound_in by lia. done.
Qed.

Lemma length_slice (a b : Z) l :
  length (slice a b l) = slice_len (Z.of_nat (length l)) a b.
Proof.
  unfold slice. rewrite length_take, length_drop.
  pose proof (slice_bound_range (Z.of_nat (length l)) a ltac:(lia)).
  pose proof (slice_bound_range (Z.of_nat (length l)) b ltac:(lia)).
  unfold slice_len. lia.
Qed.

Lemma slice_all l : slice 0 (Z.of_nat (length l)) l = l.
Proof.
  unfold slice, slice_len. rewrite !slice_bound_in by lia.
  simpl. rewrite Z.sub_0_r, Nat2Z.id. apply firstn_all.
Qed.

End Slices.

(** ** Tensors: shapes, flips, windows, resizing *)

Section Lists.
Context {A : Type}.

Lemma map_fixed (f : A → A) (l : list A) :
  Forall (λ x, f x = x) l → map f l = l.
Proof. induction 1 as [|x l Hx _ IH]; simpl; [done | by rewrite Hx, IH]. Qed.

Lemma map_nth_seq (d : A) (l : list A) :
  map (λ j, nth j l d) (seq 0 (length l)) = l.
Proof.
  apply (nth_ext _ _ d d).
  - by rewrite length_map, length_seq.
  - intros k Hk. rewrite length_map, length_seq in Hk.
    set (f := λ j, nth j l d).
    rewrite (nth_indep _ d (f 0%nat))
      by (rewrite length_map, length_seq; lia).
    rewrite (map_nth f), seq_nth by lia. done.
Qed.

Lemma Forall_slice (P : A → Prop) (a b : Z) (l : list A) :
  Forall P l → Forall P (slice a b l).
Proof. intros H. unfold slice. by apply Forall_take, Forall_drop. Qed.

End Lists.

Section Tensors.
Implicit Types t : Tensor.

Lemma flip3_involutive t : flip3 (flip3 t) = t.
Proof.
  destruct t as [sh d]. unfold flip3; simpl. f_equal.
  rewrite map_map. apply map_fixed, Forall_forall. intros img _.
  rewrite map_map. apply map_fixed, Forall_forall. intros ch _.
  rewrite map_map. apply map_fixed, Forall_forall. intros row _.
  apply rev_involutive.
Qed.

Lemma index_hw_shape t b c h w h0 h1 w0 w1 :
  shape t = (b, c, h, w) →
  shape (index_hw t (h0, h1, w0, w1))
  = (b, c, slice_len (Z.of_nat h) h0 h1, slice_len (Z.of_nat w) w0 w1).
Proof. intros Hs. unfold index_hw. by rewrite Hs. Qed.

Lemma index_hw_well_shaped t win : well_shaped t → well_shaped (index_hw t win).
Proof.
  destruct t as [[[[b c] h] w] d], win as [[[h0 h1] w0] w1].
  unfold well_shaped, index_hw; simpl. intros [Hb Himgs]. split.
  - by rewrite length_map.
  - apply Forall_map. eapply Forall_impl; [exact Himgs|].
    intros img [Hc Hchs]; simpl. split; [by rewrite length_map|].
    apply Forall_map. eapply Forall_impl; [exact Hchs|].
    intros ch [Hh Hrows]; simpl. split.
    + by rewrite length_map, length_slice, Hh.
    + apply Forall_map. apply Forall_slice.
      eapply Forall_impl; [exact Hrows|].
      intros row Hw; simpl. by rewrite length_slice, Hw.
Qed.

(** The window that covers the whole plane selects the tensor itself. *)
Lemma index_hw_full t b c h w :
  well_shaped t → shape t = (b, c, h, w) →
  index_hw t (0, Z.of_nat h, 0, Z.of_nat w) = t.
Proof.
  destruct t as [sh d]. unfold well_shaped, index_hw; simpl.
  intros Hws ->. destruct Hws as [Hb Himgs].
  rewrite !slice_len_in by lia. rewrite !Z.sub_0_r, !Nat2Z.id. f_equal.
  apply map_fixed. eapply Forall_impl; [exact Himgs|].
  intros img [_ Hchs]; simpl. apply map_fixed.
  eapply Forall_impl; [exact Hchs|].
  intros ch [Hh Hrows]; simpl. rewrite <-Hh, slice_all.
  apply map_fixed. eapply Forall_impl; [exact Hrows|].
  intros row Hw; simpl. by rewrite <-Hw, slice_all.
Qed.

Lemma interpolate_ok t b c h w oh ow :
  shape t = (b, c, h, w) → (0 < c)%nat →
  (0 < h)%nat → (0 < w)%nat → (0 < oh)%nat → (0 < ow)%nat →
  interpolate t oh ow
  = Ok {| shape := (b, c, oh, ow);
          data := map (map (resize_plane h w oh ow)) (data t) |}.
Proof.
  intros Hs Hc Hh Hw Hoh How. unfold interpolate. rewrite Hs.
  apply Nat.ltb_lt in Hc, Hh, Hw, Hoh, How.
  by rewrite Hc, Hh, Hw, Hoh, How.
Qed.

Lemma resize_plane_shaped ih iw oh ow ch :
  plane_shaped oh ow (resize_plane ih iw oh ow ch).
Proof.
  unfold plane_shaped, resize_plane. split.
  - by rewrite length_map, length_seq.
  - apply Forall_map, Forall_forall. intros i _; simpl.
    by rewrite length_map, length_seq.
Qed.

Lemma resized_well_shaped t b c h w oh ow :
  well_shaped t → shape t = (b, c, h, w) →
  well_shaped {| shape := (b, c, oh, ow);
                 data := map (map (resize_plane h w oh ow)) (data t) |}.
Proof.
  destruct t as [sh d]. unfold well_shaped; simpl. intros Hws ->.
  destruct Hws as [Hb Himgs]. split; [by rewrite length_map|].
  apply Forall_map. eapply Forall_impl; [exact Himgs|].
  intros img [Hc _]; simpl. split; [by rewrite length_map|].
  apply Forall_map, Forall_forall. intros ch _. apply resize_plane_shaped.
Qed.

End Tensors.

(** ** Resizing to the same size *)

Section SameSize.
Local Open Scope Qc_scope.

Lemma src_index_same (n i : nat) :
  (i < n)%nat → src_index n n i = float (Z.of_nat i).
Proof.
  intros Hi. unfold src_index, area_scale.
  destruct (1 <? n)%nat eqn:E.
  - apply Nat.ltb_lt in E.
    assert (float (Z.of_nat n - 1) ≠ 0) as Hnz.
    { intros Heq. pose proof (float_pos (Z.of_nat n - 1) ltac:(lia)) as Hp.
      rewrite Heq in Hp. by apply Qclt_not_eq in Hp. }
    unfold Qcdiv. by rewrite Qcmult_inv_r, Qcmult_1_l.
  - apply Nat.ltb_ge in E. assert (i = 0%nat) as -> by lia.
    change (Z.of_nat 0) with 0%Z. unfold float.
    rewrite Z2Qc_inj_0. apply Qcmult_0_l.
Qed.

Lemma bilinear_at_same ch ih iw i j :
  (i < ih)%nat → (j < iw)%nat → bilinear_at ch ih iw ih iw i j = pixel ch i j.
Proof.
  intros Hi Hj. unfold bilinear_at. cbv zeta.
  rewrite !src_index_same by done. rewrite !int_float, !Nat2Z.id. ring.
Qed.

Lemma resize_plane_same n m ch :
  plane_shaped n m ch → resize_plane n m n m ch = ch.
Proof.
  intros [Hn Hrows]. unfold resize_plane.
  transitivity (map (λ i, nth i ch []) (seq 0 n)).
  - apply map_ext_in. intros i Hi%in_seq.
    transitivity (map (λ j, nth j (nth i ch []) 0) (seq 0 m)).
    + apply map_ext_in. intros j Hj%in_seq. apply bilinear_at_same; lia.
    + assert (length (nth i ch []) = m) as <-.
      { apply (Forall_nth (λ row, length row = m) [] ch); [done | lia]. }
      apply map_nth_seq.
  - rewrite <-Hn. apply map_nth_seq.
Qed.

Lemma interpolate_same t b c n m :
  well_shaped t → shape t = (b, c, n, m) →
  (0 < c)%nat → (0 < n)%nat → (0 < m)%nat →
  interpolate t n m = Ok t.
Proof.
  intros Hws Hs Hc Hn Hm. rewrite (interpolate_ok t b c n m) by done.
  destruct t as [sh d]. unfold well_shaped in Hws. simpl in *. subst sh.
  destruct Hws as [_ Himgs]. do 2 f_equal.
  apply map_fixed. eapply Forall_impl; [exact Himgs|].
  intros img [_ Hchs]; simpl. apply map_fixed.
  eapply Forall_impl; [exact Hchs|].
  intros ch Hch; simpl. by apply resize_plane_same.
Qed.

End SameSize.

(** ** The store *)

Section Store.
Implicit Types (σ : gmap positive Tensor) (x : handle) (s : State).

Lemma fresh_None σ : σ !! fresh (dom σ) = None.
Proof. apply not_elem_of_dom, is_fresh. Qed.

Lemma deref_view σ x win t :
  deref σ x = Some t →
  deref σ (mkHandle (storage x) (view x ++ [win])) = Some (index_hw t win).
Proof.
  unfold deref; simpl. destruct (σ !! storage x); [|done].
  intros [= <-]. by rewrite foldl_app.
Qed.

Lemma deref_fresh σ t :
  deref (<[fresh (dom σ) := t]> σ) (mkHandle (fresh (dom σ)) []) = Some t.
Proof. unfold deref; simpl. by rewrite lookup_insert_eq. Qed.

Lemma deref_mono σ σ' x t :
  σ ⊆ σ' → deref σ x = Some t → deref σ' x = Some t.
Proof.
  unfold deref. intros Hsub. destruct (σ !! storage x) eqn:E; [|done].
  by rewrite (lookup_weaken _ _ _ _ E Hsub).
Qed.

Lemma insert_fresh_subseteq σ t : σ ⊆ <[fresh (dom σ) := t]> σ.
Proof. apply insert_subseteq, fresh_None. Qed.

Lemma read_run s x t : deref (heap s) x = Some t → read x s = (Ok t, s).
Proof. intros H. unfold read. by rewrite H. Qed.

Lemma clone_run s x t :
  deref (heap s) x = Some t →
  clone x s = (Ok (mkHandle (fresh (dom (heap s))) []),
               mkState (<[fresh (dom (heap s)) := t]> (heap s)) (rng s)).
Proof. intros H. unfold clone, bind. by rewrite (read_run _ _ _ H). Qed.

Lemma torch_flip_run s x t :
  deref (heap s) x = Some t →
  torch_flip x s = (Ok (mkHandle (fresh (dom (heap s))) []),
                    mkState (<[fresh (dom (heap s)) := flip3 t]> (heap s)) (rng s)).
Proof. intros H. unfold torch_flip, bind. by rewrite (read_run _ _ _ H). Qed.

Lemma F_interpolate_run s x t r oh ow :
  deref (heap s) x = Some t → interpolate t oh ow = Ok r →
  F_interpolate x oh ow s
  = (Ok (mkHandle (fresh (dom (heap s))) []),
     mkState (<[fresh (dom (heap s)) := r]> (heap s)) (rng s)).
Proof.
  intros H Hr. unfold F_interpolate, bind, lift.
  by rewrite (read_run _ _ _ H), Hr.
Qed.

Lemma F_interpolate_raise s x t e oh ow :
  deref (heap s) x = Some t → interpolate t oh ow = Raise e →
  F_interpolate x oh ow s = (Raise e, s).
Proof.
  intros H Hr. unfold F_interpolate, bind, lift.
  by rewrite (read_run _ _ _ H), Hr.
Qed.

End Store.

(** ** No computation of the wrapper writes to an existing storage *)

Section Frame.
Context {A B : Type}.

Lemma grows_ret (a : A) : grows (ret a).
Proof. by intros s. Qed.

Lemma grows_lift (r : result A) : grows (lift r).
Proof. by intros s. Qed.

Lemma grows_bind (m : M State A) (k : A → M State B) :
  grows m → (∀ a, grows (k a)) → grows (bind m k).
Proof.
  intros Hm Hk s. unfold bind. specialize (Hm s).
  destruct (m s) as [[a|e] s']; simpl in *; [|done].
  etrans; [exact Hm | apply Hk].
Qed.

End Frame.

Lemma grows_read x : grows (read x).
Proof. intros s. unfold read. by destruct (deref (heap s) x). Qed.

Lemma grows_alloc t : grows (alloc t).
Proof. intros s. apply insert_fresh_subseteq. Qed.

Lemma grows_np_random : grows np_random.
Proof. by intros s. Qed.

Create HintDb frame.
#[local] Hint Resolve grows_ret grows_lift grows_read grows_alloc
  grows_np_random : frame.

Ltac frame :=
  repeat first
    [ apply grows_bind; [|intros ?]
    | match goal with |- grows (if ?c then _ else _) => destruct c end
    | solve [auto with frame] ].

Lemma grows_np_uniform low high : grows (np_uniform low high).
Proof. unfold np_uniform. frame. Qed.

Lemma grows_getitem_hw x win : grows (getitem_hw x win).
Proof. unfold getitem_hw. frame. Qed.

Lemma grows_clone x : grows (clone x).
Proof. unfold clone. frame. Qed.

Lemma grows_torch_flip x : grows (torch_flip x).
Proof. unfold torch_flip. frame. Qed.

Lemma grows_F_interpolate x oh ow : grows (F_interpolate x oh ow).
Proof. unfold F_interpolate. frame. Qed.

#[local] Hint Resolve grows_np_uniform grows_getitem_hw grows_clone
  grows_torch_flip grows_F_interpolate : frame.

Lemma grows_crop_window images scale :
  grows (AugWrapper.crop_window images scale).
Proof. unfold AugWrapper.crop_window. frame. Qed.

#[local] Hint Resolve grows_crop_window : frame.

Lemma grows_random_crop_and_resize images scale :
  grows (AugWrapper.random_crop_and_resize images scale).
Proof. unfold AugWrapper.random_crop_and_resize. frame. Qed.

Lemma grows_random_hflip tensor prob :
  grows (AugWrapper.random_hflip tensor prob).
Proof. unfold AugWrapper.random_hflip. frame. Qed.

#[local] Hint Resolve grows_random_crop_and_resize grows_random_hflip : frame.

Lemma grows_forward self images detach :
  grows (AugWrapper.forward self images detach).
Proof. unfold AugWrapper.forward. frame. Qed.

(** ** Running the wrapper's methods *)

Section Running.
Import AugWrapper.
Local Open Scope Qc_scope.
Implicit Types (s : State) (t img : Tensor).

Lemma crop_window_run s images img scale :
  deref (heap s) images = Some img →
  crop_window images scale s
  = (Ok (width img,
         window_of (width img) scale (rng s 0%nat) (rng s 1%nat)),
     {| heap := heap s; rng := λ k, rng s (S (S k)) |}).
Proof.
  intros H. unfold crop_window, bind. by rewrite (read_run _ _ _ H).
Qed.

Lemma random_crop_and_resize_ok s images img scale r :
  deref (heap s) images = Some img →
  interpolate
    (index_hw img (window_of (width img) scale (rng s 0%nat) (rng s 1%nat)))
    (width img) (width img) = Ok r →
  ∃ out s', random_crop_and_resize images scale s = (Ok out, s') ∧
            deref (heap s') out = Some r.
Proof.
  intros H Hr. unfold random_crop_and_resize, bind at 1.
  rewrite (crop_window_run _ _ img) by done. cbn [fst snd].
  unfold bind at 1, getitem_hw, ret. unfold bind at 1.
  erewrite clone_run by (by apply deref_view).
  erewrite F_interpolate_run; [|apply deref_fresh|exact Hr].
  eexists _, _. split; [done|]. apply deref_fresh.
Qed.

Lemma random_crop_and_resize_raise s images img scale e :
  deref (heap s) images = Some img →
  interpolate
    (index_hw img (window_of (width img) scale (rng s 0%nat) (rng s 1%nat)))
    (width img) (width img) = Raise e →
  fst (random_crop_and_resize images scale s) = Raise e.
Proof.
  intros H Hr. unfold random_crop_and_resize, bind at 1.
  rewrite (crop_window_run _ _ img) by done. cbn [fst snd].
  unfold bind at 1, getitem_hw, ret. unfold bind at 1.
  erewrite clone_run by (by apply deref_view).
  by erewrite F_interpolate_raise; [|apply deref_fresh|exact Hr].
Qed.

Lemma random_hflip_keep s tensor prob :
  rng s 0%nat < prob →
  random_hflip tensor prob s
  = (Ok tensor, {| heap := heap s; rng := λ k, rng s (S k) |}).
Proof.
  intros Hu. unfold random_hflip, bind, np_random.
  by destruct (decide _).
Qed.

Lemma random_hflip_flip s tensor prob t :
  deref (heap s) tensor = Some t → prob ≤ rng s 0%nat →
  random_hflip tensor prob s
  = (Ok (mkHandle (fresh (dom (heap s))) []),
     {| heap := <[fresh (dom (heap s)) := flip3 t]> (heap s);
        rng := λ k, rng s (S k) |}).
Proof.
  intros H Hu. unfold random_hflip, bind, np_random.
  destruct (decide _) as [Hlt|_].
  - by apply Qcle_not_lt in Hu.
  - by rewrite (torch_flip_run _ _ t).
Qed.

End Running.

(** ** random_hflip *)

Section Hflip.
Import AugWrapper.
Local Open Scope Qc_scope.

(** C3, as stated, fails: with [prob = 1/2] and the draw [3/4], which is
    greater than [prob], [random_hflip] returns a new tensor whose
    content is the flip of the input, and that differs from the input. *)
Lemma hflip_draw_above_prob_flips :
  q 1 2 < rng (state1 row01 (q 3 4)) 0%nat ∧
  ∃ y s', random_hflip input1 (q 1 2) (state1 row01 (q 3 4)) = (Ok y, s') ∧
          deref (heap s') y = Some (flip3 row01) ∧
          flip3 row01 ≠ row01.
Proof.
  split; [by vm_compute|].
  eexists _, _. split; [|split].
  - apply (random_hflip_flip _ _ _ row01); [done | by vm_compute].
  - apply deref_fresh.
  - intros [=].
Qed.

(** C3, amended: [random_hflip] returns its argument itself, and
    allocates nothing, exactly when the draw is strictly less than
    [prob]; otherwise it returns a new tensor holding the flip of the
    argument.  [prob] is the probability of not flipping. *)
Theorem random_hflip_spec (s : State) (tensor : handle) (prob : Qc) (t : Tensor) :
  deref (heap s) tensor = Some t →
  ∃ y s', random_hflip tensor prob s = (Ok y, s') ∧
    if decide (rng s 0%nat < prob)
    then y = tensor ∧ heap s' = heap s
    else deref (heap s') y = Some (flip3 t) ∧ heap s !! storage y = None.
Proof.
  intros H. destruct (decide _) as [Hlt|Hge].
  - eexists _, _. split; [by apply random_hflip_keep|done].
  - apply Qcnot_lt_le in Hge. eexists _, _. split.
    + by apply (random_hflip_flip _ _ _ t).
    + split; [apply deref_fresh | apply fresh_None].
Qed.

Lemma random_hflip_spec_witness :
  deref (heap (state1 row01 (q 3 4))) input1 = Some row01 ∧
  ∃ y s', random_hflip input1 (q 1 2) (state1 row01 (q 3 4)) = (Ok y, s') ∧
    if decide (rng (state1 row01 (q 3 4)) 0%nat < q 1 2)
    then y = input1 ∧ heap s' = heap (state1 row01 (q 3 4))
    else deref (heap s') y = Some (flip3 row01) ∧
         heap (state1 row01 (q 3 4)) !! storage y = None.
Proof.
  split; [reflexivity|].
  apply (random_hflip_spec (state1 row01 (q 3 4)) input1 (q 1 2) row01).
  reflexivity.
Defined.

(** C9: two calls of [random_hflip] that both take the flip branch give
    back a tensor equal to the first argument. *)
Theorem random_hflip_twice (s : State) (tensor : handle) (prob : Qc) (t : Tensor) :
  deref (heap s) tensor = Some t →
  prob ≤ rng s 0%nat → prob ≤ rng s 1%nat →
  ∃ y s', (once <~ random_hflip tensor prob ;; random_hflip once prob) s
          = (Ok y, s') ∧
          deref (heap s') y = Some t.
Proof.
  intros H Hu0 Hu1. unfold bind at 1.
  rewrite (random_hflip_flip _ _ _ t) by done.
  eexists _, _. split.
  - apply (random_hflip_flip _ _ _ (flip3 t)); [apply deref_fresh | done].
  - simpl. rewrite flip3_involutive. apply deref_fresh.
Qed.

Lemma random_hflip_twice_witness :
  ∃ y s', (once <~ random_hflip input1 0 ;; random_hflip once 0)
            (state1 row01 (q 1 2)) = (Ok y, s') ∧
          deref (heap s') y = Some row01.
Proof.
  apply (random_hflip_twice (state1 row01 (q 1 2)) input1 0 row01).
  - reflexivity.
  - by vm_compute.
  - by vm_compute.
Defined.

End Hflip.

(** ** forward *)

Section Forward.
Import AugWrapper.
Local Open Scope Qc_scope.

Lemma forward_pass_through (self : AugWrapper.t) s images detach t :
  deref (heap s) images = Some t → prob self ≤ rng s 0%nat →
  forward self images detach s
  = (D self t, {| heap := heap s; rng := λ k, rng s (S k) |}).
Proof.
  intros H Hu. unfold forward, bind at 1, np_random.
  destruct (decide _) as [Hlt|_]; [by apply Qcle_not_lt in Hu|].
  unfold bind, ret, lift. by rewrite (read_run _ _ t).
Qed.

(** C8: with [aug_prob = 0] the scores of a fixed batch are those of the
    wrapped discriminator on the batch itself, whatever the draws: two
    calls, from any two states in which the batch is the same, return
    the same scores and allocate nothing. *)
Theorem forward_without_augmentation
    (D : Tensor → result Scores) (image_size : Z) (images : handle)
    (detach : bool) (s1 s2 : State) (t : Tensor) :
  deref (heap s1) images = Some t → deref (heap s2) images = Some t →
  0 ≤ rng s1 0%nat → 0 ≤ rng s2 0%nat →
  fst (forward (__init__ D image_size 0) images detach s1) = D t ∧
  fst (forward (__init__ D image_size 0) images detach s2) = D t ∧
  heap (snd (forward (__init__ D image_size 0) images detach s1)) = heap s1 ∧
  heap (snd (forward (__init__ D image_size 0) images detach s2)) = heap s2.
Proof.
  intros H1 H2 Hu1 Hu2.
  rewrite (forward_pass_through _ s1 _ _ t), (forward_pass_through _ s2 _ _ t)
    by done.
  done.
Qed.

Lemma forward_without_augmentation_witness :
  fst (forward (__init__ sum_pixels 128 0) input1 false (state1 grid4 (q 1 4)))
  = sum_pixels grid4 ∧
  fst (forward (__init__ sum_pixels 128 0) input1 false (state1 grid4 (q 3 4)))
  = sum_pixels grid4 ∧
  heap (snd (forward (__init__ sum_pixels 128 0) input1 false
               (state1 grid4 (q 1 4)))) = heap (state1 grid4 (q 1 4)) ∧
  heap (snd (forward (__init__ sum_pixels 128 0) input1 false
               (state1 grid4 (q 3 4)))) = heap (state1 grid4 (q 3 4)).
Proof.
  apply (forward_without_augmentation sum_pixels 128 input1 false
           (state1 grid4 (q 1 4)) (state1 grid4 (q 3 4)) grid4).
  - reflexivity.
  - reflexivity.
  - by vm_compute.
  - by vm_compute.
Defined.

(** C10: the [image_size] given to the constructor is not kept: two
    wrappers built with different sizes are the same wrapper, and their
    [forward] agree on every input, state and stream of draws. *)
Theorem image_size_is_ignored
    (D : Tensor → result Scores) (prob : Qc) (size1 size2 : Z)
    (images : handle) (detach : bool) (s : State) :
  __init__ D size1 prob = __init__ D size2 prob ∧
  forward (__init__ D size1 prob) images detach s
  = forward (__init__ D size2 prob) images detach s.
Proof. split; reflexivity. Qed.

(** C7: [forward] never writes to a storage that exists when it is
    called: every storage of the initial store, that of the input
    included, holds the same tensor afterwards, on every branch and also
    when an exception is raised; what augmentation builds is allocated. *)
Theorem forward_keeps_input
    (self : AugWrapper.t) (images : handle) (detach : bool) (s : State)
    (t : Tensor) :
  deref (heap s) images = Some t →
  heap s ⊆ heap (snd (forward self images detach s)) ∧
  deref (heap (snd (forward self images detach s))) images = Some t.
Proof.
  intros H. pose proof (grows_forward self images detach s) as Hsub.
  split; [done | by apply (deref_mono (heap s))].
Qed.

Lemma forward_keeps_input_witness :
  heap (state1 grid4 (q 1 4))
  ⊆ heap (snd (forward (__init__ sum_pixels 128 1) input1 false
                 (state1 grid4 (q 1 4)))) ∧
  deref (heap (snd (forward (__init__ sum_pixels 128 1) input1 false
                      (state1 grid4 (q 1 4))))) input1 = Some grid4.
Proof.
  apply (forward_keeps_input (__init__ sum_pixels 128 1) input1 false
           (state1 grid4 (q 1 4)) grid4).
  reflexivity.
Defined.

End Forward.

(** ** The plotting hook *)

Section Plot.
Import Runner.

(** Off the cadence the hook does nothing. *)
Lemma plot_off_cadence (self : Runner.t) (iteration : Z) :
  plot_every (args self) ≠ 0 →
  iteration mod plot_every (args self) ≠ 0 →
  plot iteration self = (Ok tt, self).
Proof.
  intros Hne Hmod. unfold plot, bind, lift, mod_, ret.
  destruct (Z.eqb_spec (plot_every (args self)) 0) as [|_]; [done|].
  by destruct (Z.eqb_spec (iteration mod plot_every (args self)) 0).
Qed.

(** On the cadence, with a captured batch [g], the sink receives the
    first 16 images, shifted and clamped, and then the iteration. *)
Lemma plot_after_forward (self : Runner.t) (g : Tensor) (iteration : Z) :
  last_generated self = Some g →
  plot_every (args self) ≠ 0 →
  iteration mod plot_every (args self) = 0 →
  plot iteration self
  = (Ok tt,
     {| args := args self; last_generated := Some g;
        logger := (logger self
                   ++ [add_images "generated"
                         (clamp (add_scalar (index_batch g 16) (Q2Qc (1 # 2)))
                            0%Qc 1%Qc)])
                  ++ [render iteration] |}).
Proof.
  intros Hg Hne Hmod. unfold plot, bind, lift, mod_, last_generated_upto, log.
  destruct (Z.eqb_spec (plot_every (args self)) 0) as [|_]; [done|].
  rewrite Hmod. cbn [Z.eqb]. rewrite Hg.
  cbn [args last_generated logger]. by rewrite Hg.
Qed.

(** C1: right after [create_model] the generator's output slot is [None];
    when the plotting cadence is reached in that state, [plot] raises
    [TypeError] and the logging sink receives nothing. *)
Theorem plot_before_first_forward
    (self : Runner.t) (Dnet : Tensor → result AugWrapper.Scores)
    (iteration : Z) :
  plot_every (args self) ≠ 0 →
  iteration mod plot_every (args self) = 0 →
  plot iteration (fst (create_model self Dnet))
  = (Raise TypeError, fst (create_model self Dnet)).
Proof.
  intros Hne Hmod. unfold plot, bind, lift, mod_; simpl.
  destruct (Z.eqb_spec (plot_every (args self)) 0) as [|_]; [done|].
  by rewrite Hmod.
Qed.

Lemma plot_before_first_forward_witness :
  plot 0 (fst (create_model (runner0 100 100) sum_pixels))
  = (Raise TypeError, fst (create_model (runner0 100 100) sum_pixels)).
Proof.
  apply (plot_before_first_forward (runner0 100 100) sum_pixels 0).
  - by vm_compute.
  - reflexivity.
Defined.

End Plot.

(** ** random_crop_and_resize *)

Section Crop.
Import AugWrapper.
Local Open Scope Qc_scope.

Lemma width_shape t b c h w : shape t = (b, c, h, w) → width t = w.
Proof. intros Hs. unfold width. by rewrite Hs. Qed.

(** The crop side is below the side of the input for a scale below 1. *)
Lemma new_size_below (n : nat) (scale : Qc) :
  (1 ≤ n)%nat → 0 < scale → scale < 1 →
  (0 ≤ int (float (Z.of_nat n) * scale) < Z.of_nat n)%Z.
Proof.
  intros Hn Hs0 Hs1.
  assert (0 < float (Z.of_nat n)) as Hfn by (apply float_pos; lia).
  assert (0 ≤ float (Z.of_nat n) * scale) as Hnn
    by (apply Qcmult_nonneg_nonneg; by apply Qclt_le_weak).
  split; [by apply int_nonneg|].
  apply int_lt; [done|].
  rewrite <-(Qcmult_1_r (float (Z.of_nat n))) at 2.
  by apply Qcmult_lt_mono_pos_l.
Qed.

(** Every offset below [d] is the truncation of some draw scaled by [d]. *)
Lemma offset_below_reached (d v : Z) :
  (0 ≤ v < d)%Z →
  ∃ u : Qc, 0 ≤ u ∧ u < 1 ∧ int (u * float d) = v.
Proof.
  intros Hv.
  assert (0 < float d) as Hd by (apply float_pos; lia).
  assert (float d ≠ 0) as Hnz
    by (intros Heq; rewrite Heq in Hd; by apply Qclt_not_eq in Hd).
  assert (float v / float d * float d = float v) as Hmul
    by (unfold Qcdiv; by rewrite <-Qcmult_assoc, (Qcmult_comm (/ _)),
          Qcmult_inv_r, Qcmult_1_r).
  exists (float v / float d). split; [|split].
  - apply (Qcmult_le_mono_pos_r _ _ (float d) Hd).
    rewrite Hmul, Qcmult_0_l. apply float_nonneg. lia.
  - apply (Qcmult_lt_mono_pos_r _ _ (float d) Hd).
    rewrite Hmul, Qcmult_1_l. unfold float.
    exact (proj1 (Z2Qc_inj_lt v d) ltac:(lia)).
  - rewrite Hmul. apply int_float.
Qed.

(** C2: the offsets drawn for the top and the left edge stay strictly
    below [dsize = size - new_size] whenever [dsize >= 1]: the window
    never starts at the last permitted position [dsize]. *)
Theorem crop_offsets_below_dsize
    (s : State) (images : handle) (img : Tensor) (scale : Qc) :
  deref (heap s) images = Some img →
  0 ≤ rng s 0%nat → rng s 0%nat < 1 → 0 ≤ rng s 1%nat → rng s 1%nat < 1 →
  let size := Z.of_nat (width img) in
  let dsize := (size - int (float size * scale))%Z in
  (1 ≤ dsize)%Z →
  ∃ h0 h1 w0 w1 s',
    crop_window images scale s = (Ok (width img, (h0, h1, w0, w1)), s') ∧
    (0 ≤ h0 < dsize)%Z ∧ (0 ≤ w0 < dsize)%Z.
Proof.
  intros H Hu0 Hu0' Hu1 Hu1' size dsize Hd.
  rewrite (crop_window_run _ _ img) by done. unfold window_of.
  eexists _, _, _, _, _. split; [reflexivity|].
  split; by apply int_scaled_draw.
Qed.

Lemma crop_offsets_below_dsize_witness :
  ∃ h0 h1 w0 w1 s',
    crop_window input1 (q 3 4) (state1 grid4 (q 7 8))
    = (Ok (width grid4, (h0, h1, w0, w1)), s') ∧
    (0 ≤ h0 < 4 - int (float 4 * q 3 4))%Z ∧
    (0 ≤ w0 < 4 - int (float 4 * q 3 4))%Z.
Proof.
  apply (crop_offsets_below_dsize (state1 grid4 (q 7 8)) input1 grid4 (q 3 4)).
  - reflexivity.
  - by vm_compute.
  - by vm_compute.
  - by vm_compute.
  - by vm_compute.
  - by vm_compute.
Defined.

(** C4, as stated, fails: on a batch of side 1 and the scale 1/2 the crop
    has side [int(0.5) = 0] and the resize raises. *)
Lemma crop_of_one_pixel_raises :
  well_shaped pixel1 ∧ shape pixel1 = (1, 1, 1, 1)%nat ∧
  0 < q 1 2 ∧ q 1 2 < 1 ∧
  fst (random_crop_and_resize input1 (q 1 2) (state1 pixel1 (q 1 4)))
  = Raise RuntimeError.
Proof.
  split; [|split; [|split; [|split]]].
  - repeat constructor.
  - reflexivity.
  - by vm_compute.
  - by vm_compute.
  - by apply (random_crop_and_resize_raise _ _ pixel1).
Qed.

(** C4, amended: for a batch with at least one channel, of square side
    [n >= 1], and a scale in (0, 1) whose crop side [int(n * scale)] is
    at least 1, the result has the shape of the input, for every pair of
    draws. *)
Theorem random_crop_and_resize_shape
    (s : State) (images : handle) (img : Tensor) (b c n : nat) (scale : Qc) :
  deref (heap s) images = Some img →
  well_shaped img → shape img = (b, c, n, n) → (1 ≤ c)%nat → (1 ≤ n)%nat →
  0 < scale → scale < 1 →
  (1 ≤ int (float (Z.of_nat n) * scale))%Z →
  0 ≤ rng s 0%nat → rng s 0%nat < 1 → 0 ≤ rng s 1%nat → rng s 1%nat < 1 →
  ∃ out s' r,
    random_crop_and_resize images scale s = (Ok out, s') ∧
    deref (heap s') out = Some r ∧
    shape r = (b, c, n, n) ∧ well_shaped r.
Proof.
  intros H Hws Hs Hc Hn Hs0 Hs1 Hnew Hu0 Hu0' Hu1 Hu1'.
  pose proof (width_shape _ _ _ _ _ Hs) as Hw.
  pose proof (new_size_below n scale Hn Hs0 Hs1) as Hlt.
  set (new_size := int (float (Z.of_nat n) * scale)) in *.
  set (dsize := (Z.of_nat n - new_size)%Z).
  assert (1 ≤ dsize)%Z as Hd by (unfold dsize; lia).
  pose proof (int_scaled_draw _ dsize Hu0 Hu0' Hd) as Hh0.
  pose proof (int_scaled_draw _ dsize Hu1 Hu1' Hd) as Hw0.
  set (win := window_of n scale (rng s 0%nat) (rng s 1%nat)).
  assert (shape (index_hw img win)
          = (b, c, Z.to_nat new_size, Z.to_nat new_size)) as Hcs.
  { unfold win, window_of. fold new_size. fold dsize.
    rewrite (index_hw_shape img b c n n) by done.
    rewrite !slice_len_in by (unfold dsize in *; lia).
    do 2 f_equal; f_equal; lia. }
  destruct (random_crop_and_resize_ok s images img scale
              {| shape := (b, c, n, n);
                 data := map (map (resize_plane (Z.to_nat new_size)
                                     (Z.to_nat new_size) n n))
                           (data (index_hw img win)) |} H)
    as (out & s' & Hrun & Hout).
  { rewrite Hw. fold win. apply interpolate_ok; [done|lia..]. }
  eexists out, s', _. split; [done|]. split; [done|]. split; [done|].
  apply (resized_well_shaped (index_hw img win)); [|done].
  by apply index_hw_well_shaped.
Qed.

Lemma random_crop_and_resize_shape_witness :
  ∃ out s' r,
    random_crop_and_resize input1 (q 3 4) (state1 grid4 (q 7 8)) = (Ok out, s') ∧
    deref (heap s') out = Some r ∧
    shape r = (1, 1, 4, 4)%nat ∧ well_shaped r.
Proof.
  apply (random_crop_and_resize_shape (state1 grid4 (q 7 8)) input1 grid4
           1 1 4 (q 3 4)).
  - reflexivity.
  - repeat constructor.
  - reflexivity.
  - lia.
  - lia.
  - by vm_compute.
  - by vm_compute.
  - by vm_compute.
  - by vm_compute.
  - by vm_compute.
  - by vm_compute.
  - by vm_compute.
Defined.

(** C5: at [scale = 1] the call succeeds on a batch with at least one
    channel and of square side [n >= 1]: the window is [(0, n, 0, n)] whatever the draws, the crop
    is the input, and the resized result holds the pixels of the
    input. *)
Theorem random_crop_and_resize_scale_one
    (s : State) (images : handle) (img : Tensor) (b c n : nat) :
  deref (heap s) images = Some img →
  well_shaped img → shape img = (b, c, n, n) → (1 ≤ c)%nat → (1 ≤ n)%nat →
  ∃ s1 out s',
    crop_window images 1 s
    = (Ok (n, (0, Z.of_nat n, 0, Z.of_nat n)%Z), s1) ∧
    index_hw img (0, Z.of_nat n, 0, Z.of_nat n)%Z = img ∧
    random_crop_and_resize images 1 s = (Ok out, s') ∧
    deref (heap s') out = Some img.
Proof.
  intros H Hws Hs Hc Hn.
  pose proof (width_shape _ _ _ _ _ Hs) as Hw.
  assert (∀ u0 u1, window_of n 1 u0 u1 = (0, Z.of_nat n, 0, Z.of_nat n)%Z)
    as Hwin.
  { intros u0 u1. unfold window_of.
    rewrite Qcmult_1_r, int_float, Z.sub_diag, !int_scaled_zero.
    by rewrite Z.add_0_l. }
  pose proof (index_hw_full img b c n n Hws Hs) as Hfull.
  destruct (random_crop_and_resize_ok s images img 1 img H)
    as (out & s' & Hrun & Hout).
  { rewrite Hw, Hwin, Hfull. apply (interpolate_same img b c); [done..|lia|lia|lia]. }
  eexists _, out, s'. split; [|done].
  rewrite (crop_window_run _ _ img) by done. by rewrite Hw, Hwin.
Qed.

Lemma random_crop_and_resize_scale_one_witness :
  ∃ s1 out s',
    crop_window input1 1 (state1 grid4 (q 7 8))
    = (Ok (4%nat, (0, 4, 0, 4)%Z), s1) ∧
    index_hw grid4 (0, 4, 0, 4)%Z = grid4 ∧
    random_crop_and_resize input1 1 (state1 grid4 (q 7 8)) = (Ok out, s') ∧
    deref (heap s') out = Some grid4.
Proof.
  apply (random_crop_and_resize_scale_one (state1 grid4 (q 7 8)) input1 grid4
           1 1 4).
  - reflexivity.
  - repeat constructor.
  - reflexivity.
  - lia.
  - lia.
Defined.

End Crop.

(** ** The repeated dataset *)

Section Repeat.
Import ConcatDataset.
Context {Dataset : Type} (len : Dataset → Z).
Implicit Types (d : Dataset) (k : nat) (s x L : Z).

Lemma list_mul_singleton d (n : Z) :
  list_mul [d] n = replicate (Z.to_nat n) d.
Proof.
  unfold list_mul. induction (Z.to_nat n) as [|k IH]; simpl; [done|].
  by rewrite IH.
Qed.

Lemma cumsum_from_replicate_last s d k L :
  len d = L →
  last (cumsum_from Dataset len s (replicate (S k) d))
  = Some (s + Z.of_nat (S k) * L).
Proof.
  intros HL. revert s. induction k as [|k IH]; intros s.
  - simpl. rewrite HL. f_equal. lia.
  - change (replicate (S (S k)) d) with (d :: replicate (S k) d).
    cbn [cumsum_from]. rewrite HL.
    specialize (IH (s + L)).
    destruct (cumsum_from Dataset len (s + L) (replicate (S k) d)) eqn:E;
      [done|].
    rewrite last_cons_cons, IH. f_equal. lia.
Qed.

Lemma cumsum_from_replicate_nth s d k (j : nat) L :
  len d = L → (j < k)%nat →
  nth j (cumsum_from Dataset len s (replicate k d)) 0
  = s + (Z.of_nat j + 1) * L.
Proof.
  intros HL. revert s j. induction k as [|k IH]; intros s j Hj; [lia|].
  simpl. rewrite HL. destruct j as [|j]; [lia|].
  rewrite IH by lia. lia.
Qed.

Lemma bisect_right_replicate s d k x L :
  len d = L → 0 < L → s ≤ x < s + Z.of_nat k * L →
  bisect_right (cumsum_from Dataset len s (replicate k d)) x
  = Z.to_nat ((x - s) / L).
Proof.
  intros HL Hpos. revert s. induction k as [|k IH]; intros s Hx; [lia|].
  simpl. rewrite HL. destruct (Z.ltb_spec x (L + s)) as [Hlt|Hge].
  - rewrite Z.div_small by lia. done.
  - rewrite IH by lia.
    replace (x - s) with ((x - (s + L)) + 1 * L) by lia.
    rewrite Z.div_add by lia.
    assert (0 ≤ (x - (s + L)) / L) by (apply Z.div_pos; lia).
    lia.
Qed.

(** Every index of the repeated dataset reads the one dataset [d], at
    the index reduced modulo its length. *)
Lemma locate_replicate d k idx L :
  len d = L → 0 ≤ idx < L * Z.of_nat (S k) →
  locate {| datasets := replicate (S k) d;
            cumulative_sizes := cumsum Dataset len (replicate (S k) d) |} idx
  = Ok (d, idx mod L).
Proof.
  intros HL Hidx. assert (0 < L) as Hpos by nia.
  unfold locate, __len__, cumsum; cbn [cumulative_sizes datasets].
  rewrite (cumsum_from_replicate_last 0 d k L HL).
  destruct (Z.ltb_spec idx 0) as [|_]; [lia|]. cbn [andb].
  rewrite (bisect_right_replicate 0 d (S k) idx L HL Hpos) by lia.
  rewrite Z.sub_0_r.
  assert (0 ≤ idx / L < Z.of_nat (S k)) as Hq.
  { split; [apply Z.div_pos; lia|]. apply Z.div_lt_upper_bound; lia. }
  pose proof (Z.div_mod idx L ltac:(lia)) as Hdm.
  rewrite lookup_replicate_2 by lia.
  destruct (Z.to_nat (idx / L)) as [|j] eqn:Ej.
  - do 2 f_equal. assert (idx / L = 0) by lia. nia.
  - rewrite (cumsum_from_replicate_nth 0 d (S k) j L HL) by lia.
    do 2 f_equal. assert (idx / L = Z.of_nat j + 1) by lia. nia.
Qed.

End Repeat.

Section CreateDataset.
Import ConcatDataset Runner.

(** C6, as stated, fails for [ds_repeat = 0]: the list of datasets is
    empty, the concatenation refuses it, and no dataset of length
    [L * 0] is returned. *)
Lemma create_dataset_without_repeat :
  ds_repeat (args (runner0 0 100)) = 0 ∧
  create_dataset positive (λ _, 5) (runner0 0 100) 1%positive
  = Raise AssertionError.
Proof. split; reflexivity. Qed.

(** C6, amended: for [ds_repeat = R >= 1] and a dataset of length [L],
    the result holds [R] references to that one dataset, reports the
    length [L * R], and the indices [i] and [i + L] both read the
    dataset at index [i mod L], for [0 <= i < L * (R - 1)]. *)
Theorem create_dataset_repeats
    {Dataset : Type} (len : Dataset → Z) (self : Runner.t)
    (dataset : Dataset) (L R : Z) :
  len dataset = L → 0 ≤ L → ds_repeat (args self) = R → 1 ≤ R →
  ∃ cd,
    create_dataset Dataset len self dataset = Ok cd ∧
    datasets cd = replicate (Z.to_nat R) dataset ∧
    __len__ cd = Ok (L * R) ∧
    ∀ i, 0 ≤ i < L * (R - 1) →
         locate cd i = Ok (dataset, i mod L) ∧
         locate cd (i + L) = Ok (dataset, i mod L).
Proof.
  intros HL HL0 HR HR1. unfold create_dataset, ConcatDataset.__init__.
  rewrite HR, list_mul_singleton.
  destruct (Z.to_nat R) as [|k] eqn:Ek; [lia|].
  assert (R = Z.of_nat (S k)) as -> by lia.
  rewrite length_replicate. cbn [Nat.ltb Nat.leb].
  eexists. split; [reflexivity|]. split; [reflexivity|]. split.
  - unfold __len__, cumsum; cbn [cumulative_sizes].
    rewrite (cumsum_from_replicate_last len 0 dataset k L HL).
    f_equal. lia.
  - intros i Hi. split.
    + apply (locate_replicate len); [done | nia].
    + rewrite (locate_replicate len dataset k (i + L) L) by (done || nia).
      do 2 f_equal. rewrite <-(Z.mul_1_l L) at 1.
      apply Z.mod_add. nia.
Qed.

Lemma create_dataset_repeats_witness :
  ∃ cd,
    create_dataset positive (λ _, 5) (runner0 3 100) 1%positive = Ok cd ∧
    datasets cd = replicate (Z.to_nat 3) 1%positive ∧
    __len__ cd = Ok (5 * 3) ∧
    ∀ i, 0 ≤ i < 5 * (3 - 1) →
         locate cd i = Ok (1%positive, i mod 5) ∧
         locate cd (i + 5) = Ok (1%positive, i mod 5).
Proof.
  apply (create_dataset_repeats (λ _ : positive, 5) (runner0 3 100)
           1%positive 5 3).
  - reflexivity.
  - lia.
  - reflexivity.
  - lia.
Defined.

End CreateDataset.

(** * Further properties of the runner *)

Section PlotMore.
Import Runner.
Local Open Scope Qc_scope.






(** X2: the hook reads the most recent output of the generator: when
    the forward hook stores [o] and the plot then runs on the cadence,
    the images logged are those of [o], whatever was captured before
    (nothing, or an older batch). *)
Theorem hook_then_plot_logs_latest
    (self : Runner.t) (o : Tensor) (iteration : Z) :
  plot_every (args self) ≠ 0%Z →
  (iteration mod plot_every (args self))%Z = 0%Z →
  (hook o ;;; plot iteration) self
  = (Ok tt,
     {| args := args self; last_generated := Some o;
        logger := logger self
                  ++ [add_images "generated"
                        (clamp (add_scalar (index_batch o 16) (Q2Qc (1 # 2))) 0 1);
                      render iteration] |}).
Proof.
  intros Hne Hmod. unfold bind at 1, hook.
  rewrite (plot_after_forward _ o iteration) by done.
  cbn [args last_generated logger]. by rewrite <-app_assoc.
Qed.

Lemma hook_then_plot_logs_latest_witness :
  (hook grid4 ;;; plot 300) (runner1 100 pixel1)
  = (Ok tt,
     {| args := args (runner1 100 pixel1); last_generated := Some grid4;
        logger := logger (runner1 100 pixel1)
                  ++ [add_images "generated"
                        (clamp (add_scalar (index_batch grid4 16) (Q2Qc (1 # 2)))
                           0 1);
                      render 300] |}).
Proof.
  apply (hook_then_plot_logs_latest (runner1 100 pixel1) grid4 300).
  - by vm_compute.
  - reflexivity.
Defined.

(** X3: with [plot_every = 0] the hook raises [ZeroDivisionError] at
    every iteration, before it looks at the captured batch, and the
    sink receives nothing. *)
Theorem plot_every_zero_raises (self : Runner.t) (iteration : Z) :
  plot_every (args self) = 0%Z →
  plot iteration self = (Raise ZeroDivisionError, self).
Proof.
  intros H0. unfold plot, bind, lift, mod_. by rewrite H0.
Qed.

Lemma plot_every_zero_raises_witness :
  plot 7 (runner1 0 grid4) = (Raise ZeroDivisionError, runner1 0 grid4).
Proof.
  apply (plot_every_zero_raises (runner1 0 grid4) 7). reflexivity.
Defined.

(** X4: off the cadence the hook returns without touching the runner
    and without a call to the sink, also when no batch has been
    captured yet. *)
Theorem plot_off_cadence_is_silent (self : Runner.t) (iteration : Z) :
  plot_every (args self) ≠ 0%Z →
  (iteration mod plot_every (args self))%Z ≠ 0%Z →
  plot iteration self = (Ok tt, self).
Proof. apply plot_off_cadence. Qed.

Lemma plot_off_cadence_is_silent_witness :
  plot 150 (runner0 1 100) = (Ok tt, runner0 1 100).
Proof.
  apply (plot_off_cadence_is_silent (runner0 1 100) 150); by vm_compute.
Defined.

End PlotMore.

(** * Further properties of the repeated dataset *)

Section RepeatMore.
Import ConcatDataset.
Context {Dataset : Type} (len : Dataset → Z).
Implicit Types (d : Dataset) (k : nat) (s x L : Z).

Lemma length_cumsum_from s (ds : list Dataset) :
  length (cumsum_from Dataset len s ds) = length ds.
Proof. revert s. induction ds as [|e ds IH]; intros s; simpl; [done|]. by rewrite IH. Qed.

Lemma cumsum_from_replicate_bound s d k L :
  len d = L → 0 ≤ L →
  Forall (λ y, y ≤ s + Z.of_nat k * L)
    (cumsum_from Dataset len s (replicate k d)).
Proof.
  intros HL HL0. revert s. induction k as [|k IH]; intros s; simpl; [done|].
  rewrite HL. constructor; [nia|].
  eapply Forall_impl; [apply IH|]. intros y Hy; simpl in Hy. lia.
Qed.

Lemma bisect_right_all (a : list Z) x :
  Forall (λ y, y ≤ x) a → bisect_right a x = length a.
Proof.
  induction 1 as [|y a Hy _ IH]; simpl; [done|].
  destruct (Z.ltb_spec x y); [lia|]. by rewrite IH.
Qed.

(** An index at or beyond the total length finds no dataset. *)
Lemma locate_replicate_beyond d k idx L :
  len d = L → 0 ≤ L → L * Z.of_nat (S k) ≤ idx →
  locate {| datasets := replicate (S k) d;
            cumulative_sizes := cumsum Dataset len (replicate (S k) d) |} idx
  = Raise IndexError.
Proof.
  intros HL HL0 Hidx.
  unfold locate, __len__, cumsum; cbn [cumulative_sizes datasets].
  rewrite (cumsum_from_replicate_last len 0 d k L HL).
  destruct (Z.ltb_spec idx 0) as [|_]; [nia|]. cbn [andb].
  rewrite bisect_right_all.
  - rewrite length_cumsum_from, length_replicate.
    by rewrite (proj1 (lookup_replicate_None (S k) d (S k)) ltac:(lia)).
  - eapply Forall_impl; [apply (cumsum_from_replicate_bound 0 d (S k) L HL HL0)|].
    intros y Hy; simpl in Hy. lia.
Qed.

(** A negative index counts from the end. *)
Lemma locate_replicate_negative d k idx L :
  len d = L → 0 ≤ L → - (L * Z.of_nat (S k)) ≤ idx < 0 →
  locate {| datasets := replicate (S k) d;
            cumulative_sizes := cumsum Dataset len (replicate (S k) d) |} idx
  = Ok (d, idx mod L).
Proof.
  intros HL HL0 Hidx.
  pose proof (locate_replicate len d k (L * Z.of_nat (S k) + idx) L HL
                ltac:(lia)) as Hpos.
  assert (0 < L) as HLpos by nia.
  replace ((L * Z.of_nat (S k) + idx) mod L) with (idx mod L) in Hpos
    by (rewrite Z.add_comm, Z.mul_comm, Z.mod_add; [done | lia]).
  rewrite <-Hpos.
  unfold locate, __len__, cumsum; cbn [cumulative_sizes datasets].
  rewrite (cumsum_from_replicate_last len 0 d k L HL).
  rewrite Z.add_0_l, (Z.mul_comm (Z.of_nat (S k)) L).
  destruct (Z.ltb_spec idx 0) as [_|]; [|lia].
  destruct (Z.ltb_spec (L * Z.of_nat (S k)) (- idx)) as [|_]; [lia|].
  destruct (Z.ltb_spec (L * Z.of_nat (S k) + idx) 0) as [|_]; [lia|].
  reflexivity.
Qed.

Lemma locate_replicate_below d k idx L :
  len d = L → 0 ≤ L → idx < - (L * Z.of_nat (S k)) →
  locate {| datasets := replicate (S k) d;
            cumulative_sizes := cumsum Dataset len (replicate (S k) d) |} idx
  = Raise ValueError.
Proof.
  intros HL HL0 Hidx.
  unfold locate, __len__, cumsum; cbn [cumulative_sizes datasets].
  rewrite (cumsum_from_replicate_last len 0 d k L HL).
  rewrite Z.add_0_l, (Z.mul_comm (Z.of_nat (S k)) L).
  destruct (Z.ltb_spec idx 0) as [_|]; [|nia].
  by destruct (Z.ltb_spec (L * Z.of_nat (S k)) (- idx)) as [_|]; [|lia].
Qed.

Lemma create_dataset_ok (self : Runner.t) d k :
  Runner.ds_repeat (Runner.args self) = Z.of_nat (S k) →
  Runner.create_dataset Dataset len self d
  = Ok {| datasets := replicate (S k) d;
          cumulative_sizes := cumsum Dataset len (replicate (S k) d) |}.
Proof.
  intros HR. unfold Runner.create_dataset, ConcatDataset.__init__.
  rewrite HR, list_mul_singleton, Nat2Z.id, length_replicate. done.
Qed.

End RepeatMore.

Section CreateDatasetMore.
Import ConcatDataset Runner.

(** X5: for [ds_repeat <= 0] the list [[dataset] * ds_repeat] is empty
    and [create_dataset] raises [AssertionError], whatever the dataset. *)
Theorem create_dataset_nonpositive_repeat
    {Dataset : Type} (len : Dataset → Z) (self : Runner.t) (dataset : Dataset) :
  ds_repeat (args self) ≤ 0 →
  create_dataset Dataset len self dataset = Raise AssertionError.
Proof.
  intros HR. unfold create_dataset, ConcatDataset.__init__.
  rewrite list_mul_singleton.
  by replace (Z.to_nat (ds_repeat (args self))) with 0%nat by lia.
Qed.

Lemma create_dataset_nonpositive_repeat_witness :
  create_dataset positive (λ _, 5) (runner0 (-2) 100) 1%positive
  = Raise AssertionError.
Proof.
  apply (create_dataset_nonpositive_repeat (λ _ : positive, 5)
           (runner0 (-2) 100) 1%positive).
  by vm_compute.
Defined.

(** X6: in the dataset built for [ds_repeat = R >= 1] over a dataset of
    length [L], every index from [-(L * R)] up to [L * R - 1] reads the
    one underlying dataset at the index reduced modulo [L]; a negative
    index counts from the end. *)
Theorem create_dataset_resolves_every_index
    {Dataset : Type} (len : Dataset → Z) (self : Runner.t)
    (dataset : Dataset) (L R : Z) :
  len dataset = L → 0 ≤ L → ds_repeat (args self) = R → 1 ≤ R →
  ∃ cd,
    create_dataset Dataset len self dataset = Ok cd ∧
    ∀ idx, - (L * R) ≤ idx < L * R → locate cd idx = Ok (dataset, idx mod L).
Proof.
  intros HL HL0 HR HR1.
  destruct (Z.to_nat R) as [|k] eqn:Ek; [lia|].
  assert (R = Z.of_nat (S k)) as -> by lia.
  eexists. split; [by apply create_dataset_ok|].
  intros idx Hidx. destruct (Z.lt_ge_cases idx 0).
  - apply (locate_replicate_negative len dataset k idx L); [done..|lia].
  - apply (locate_replicate len); [done|lia].
Qed.

Lemma create_dataset_resolves_every_index_witness :
  ∃ cd,
    create_dataset positive (λ _, 5) (runner0 3 100) 1%positive = Ok cd ∧
    ∀ idx, - (5 * 3) ≤ idx < 5 * 3 → locate cd idx = Ok (1%positive, idx mod 5).
Proof.
  apply (create_dataset_resolves_every_index (λ _ : positive, 5)
           (runner0 3 100) 1%positive 5 3).
  - reflexivity.
  - lia.
  - reflexivity.
  - lia.
Defined.

(** X7: in the same dataset an index at or beyond [L * R] raises
    [IndexError] and an index below [-(L * R)] raises [ValueError]. *)
Theorem create_dataset_index_out_of_range
    {Dataset : Type} (len : Dataset → Z) (self : Runner.t)
    (dataset : Dataset) (L R : Z) :
  len dataset = L → 0 ≤ L → ds_repeat (args self) = R → 1 ≤ R →
  ∃ cd,
    create_dataset Dataset len self dataset = Ok cd ∧
    (∀ idx, L * R ≤ idx → locate cd idx = Raise IndexError) ∧
    (∀ idx, idx < - (L * R) → locate cd idx = Raise ValueError).
Proof.
  intros HL HL0 HR HR1.
  destruct (Z.to_nat R) as [|k] eqn:Ek; [lia|].
  assert (R = Z.of_nat (S k)) as -> by lia.
  eexists. split; [by apply create_dataset_ok|]. split.
  - intros idx Hidx. by apply (locate_replicate_beyond len dataset k idx L).
  - intros idx Hidx. by apply (locate_replicate_below len dataset k idx L).
Qed.

Lemma create_dataset_index_out_of_range_witness :
  ∃ cd,
    create_dataset positive (λ _, 5) (runner0 3 100) 1%positive = Ok cd ∧
    (∀ idx, 5 * 3 ≤ idx → locate cd idx = Raise IndexError) ∧
    (∀ idx, idx < - (5 * 3) → locate cd idx = Raise ValueError).
Proof.
  apply (create_dataset_index_out_of_range (λ _ : positive, 5)
           (runner0 3 100) 1%positive 5 3).
  - reflexivity.
  - lia.
  - reflexivity.
  - lia.
Defined.

End CreateDatasetMore.

(** * Further properties of the augmentation *)

Section ArithmeticMore.
Local Open Scope Qc_scope.

Lemma int_ge (x : Qc) (m : Z) : 0 ≤ x → float m ≤ x → (m ≤ int x)%Z.
Proof.
  intros Hx Hm. rewrite int_floor by done.
  rewrite <-(Qfloor_Z m). apply Qfloor_resp_le. exact Hm.
Qed.

Lemma int_le (x : Qc) (m : Z) : 0 ≤ x → x ≤ float m → (int x ≤ m)%Z.
Proof.
  intros Hx Hm. rewrite int_floor by done.
  rewrite <-(Qfloor_Z m). apply Qfloor_resp_le. exact Hm.
Qed.

(** [np.random.uniform(0.75, 0.95)] lies in [0.75, 0.95). *)
Lemma uniform_scale_range (u : Qc) :
  0 ≤ u → u < 1 →
  Q2Qc (3 # 4) ≤ Q2Qc (3 # 4) + (Q2Qc (19 # 20) - Q2Qc (3 # 4)) * u ∧
  Q2Qc (3 # 4) + (Q2Qc (19 # 20) - Q2Qc (3 # 4)) * u < Q2Qc (19 # 20).
Proof.
  intros Hu0 Hu1.
  assert (0 < Q2Qc (19 # 20) - Q2Qc (3 # 4)) as Hd by (by vm_compute).
  split.
  - rewrite <-(Qcplus_0_r (Q2Qc (3 # 4))) at 1.
    apply Qcplus_le_mono_l.
    apply Qcmult_nonneg_nonneg; [by apply Qclt_le_weak | done].
  - assert (Q2Qc (3 # 4) + (Q2Qc (19 # 20) - Q2Qc (3 # 4)) * 1
            = Q2Qc (19 # 20)) as Heq by ring.
    pose proof (proj1 (Qcmult_lt_mono_pos_l u 1 _ Hd) Hu1) as Hmul.
    pose proof (proj1 (Qcplus_lt_mono_l _ _ (Q2Qc (3 # 4))) Hmul) as Hlt.
    by rewrite Heq in Hlt.
Qed.



End ArithmeticMore.

Section CropMore.
Import AugWrapper.
Local Open Scope Qc_scope.

Lemma interpolate_shape t r b c h w oh ow :
  shape t = (b, c, h, w) → interpolate t oh ow = Ok r →
  shape r = (b, c, oh, ow).
Proof.
  intros Hs. unfold interpolate. rewrite Hs.
  destruct (_ && _)%bool; [|done]. by intros [= <-].
Qed.

Lemma interpolate_raises t oh ow e :
  interpolate t oh ow = Raise e → e = RuntimeError.
Proof.
  unfold interpolate. destruct (shape t) as [[[b c] h] w].
  destruct (_ && _)%bool; [done|]. by intros [= <-].
Qed.

Lemma random_crop_and_resize_run s images img scale r :
  deref (heap s) images = Some img →
  interpolate
    (index_hw img (window_of (width img) scale (rng s 0%nat) (rng s 1%nat)))
    (width img) (width img) = Ok r →
  let crop :=
    index_hw img (window_of (width img) scale (rng s 0%nat) (rng s 1%nat)) in
  let σ1 := <[fresh (dom (heap s)) := crop]> (heap s) in
  random_crop_and_resize images scale s
  = (Ok (mkHandle (fresh (dom σ1)) []),
     {| heap := <[fresh (dom σ1) := r]> σ1; rng := λ k, rng s (S (S k)) |}).
Proof.
  intros H Hr crop σ1. unfold random_crop_and_resize, bind at 1.
  rewrite (crop_window_run _ _ img) by done. cbn [fst snd].
  unfold bind at 1, getitem_hw, ret. unfold bind at 1.
  erewrite clone_run by (by apply deref_view).
  by erewrite F_interpolate_run; [|apply deref_fresh|exact Hr].
Qed.

Lemma empty_crop_run s images img scale :
  deref (heap s) images = Some img →
  int (float (Z.of_nat (width img)) * scale) = 0%Z →
  fst (random_crop_and_resize images scale s) = Raise RuntimeError.
Proof.
  intros H Hnew. apply (random_crop_and_resize_raise _ _ img); [done|].
  unfold window_of. rewrite Hnew, !Z.add_0_r.
  destruct img as [[[[b c] h] w] d]. unfold interpolate, index_hw; simpl.
  unfold slice_len. rewrite !Z.sub_diag. simpl.
  by rewrite !andb_false_r.
Qed.



(** X9: [random_crop_and_resize] either raises [RuntimeError] or
    returns a tensor with the batch and channel sizes of the input and
    the square spatial size [(w, w)], where [w] is the width of the
    input: the height of the input does not matter. *)
Theorem random_crop_and_resize_square_output
    (s : State) (images : handle) (img : Tensor) (b c h w : nat) (scale : Qc) :
  deref (heap s) images = Some img → shape img = (b, c, h, w) →
  fst (random_crop_and_resize images scale s) = Raise RuntimeError ∨
  ∃ out s' r,
    random_crop_and_resize images scale s = (Ok out, s') ∧
    deref (heap s') out = Some r ∧ shape r = (b, c, w, w).
Proof.
  intros H Hs. pose proof (width_shape _ _ _ _ _ Hs) as Hw.
  destruct (interpolate
              (index_hw img (window_of (width img) scale (rng s 0%nat)
                               (rng s 1%nat)))
              (width img) (width img)) as [r|e] eqn:E.
  - right. eexists _, _, r. split; [|split].
    + by apply (random_crop_and_resize_run s images img scale r).
    + apply deref_fresh.
    + rewrite Hw in E.
      destruct (window_of w scale (rng s 0%nat) (rng s 1%nat))
        as [[[h0 h1] w0] w1].
      apply (interpolate_shape _ _ _ _ _ _ _ _
               (index_hw_shape img b c h w h0 h1 w0 w1 Hs) E).
  - left. rewrite (interpolate_raises _ _ _ _ E) in E.
    by apply (random_crop_and_resize_raise _ _ img).
Qed.

Lemma random_crop_and_resize_square_output_witness :
  fst (random_crop_and_resize input1 1 (state1 row01 (q 1 4)))
  = Raise RuntimeError ∨
  ∃ out s' r,
    random_crop_and_resize input1 1 (state1 row01 (q 1 4)) = (Ok out, s') ∧
    deref (heap s') out = Some r ∧ shape r = (1, 1, 2, 2)%nat.
Proof.
  apply (random_crop_and_resize_square_output (state1 row01 (q 1 4)) input1
           row01 1 1 1 2 1).
  - reflexivity.
  - reflexivity.
Defined.



End CropMore.

(** ** Interpolation stays between the pixels it reads *)

Section Range.
Local Open Scope Qc_scope.

(** The source coordinate of an output index lies inside the input. *)
Lemma src_index_range (ih oh i : nat) :
  (1 ≤ ih)%nat → (i < oh)%nat →
  0 ≤ src_index ih oh i ∧ src_index ih oh i ≤ float (Z.of_nat ih - 1).
Proof.
  intros Hih Hi. unfold src_index, area_scale.
  assert (0 ≤ float (Z.of_nat ih - 1)) as Ha by (apply float_nonneg; lia).
  assert (0 ≤ float (Z.of_nat i)) as Hfi by (apply float_nonneg; lia).
  destruct (1 <? oh)%nat eqn:E.
  - apply Nat.ltb_lt in E.
    assert (0 < float (Z.of_nat oh - 1)) as Hb by (apply float_pos; lia).
    assert (float (Z.of_nat oh - 1) ≠ 0) as Hnz
      by (intros Heq; rewrite Heq in Hb; by apply Qclt_not_eq in Hb).
    assert (0 ≤ float (Z.of_nat ih - 1) / float (Z.of_nat oh - 1)) as Hq.
    { unfold Qcdiv. apply Qcmult_nonneg_nonneg; [done|].
      by apply Qclt_le_weak, Qcinv_pos. }
    split; [by apply Qcmult_nonneg_nonneg|].
    assert (float (Z.of_nat i) ≤ float (Z.of_nat oh - 1)) as Hle
      by (unfold float;
          exact (proj1 (Z2Qc_inj_le (Z.of_nat i) (Z.of_nat oh - 1))
                   ltac:(lia))).
    apply Qcle_trans
      with (float (Z.of_nat ih - 1) / float (Z.of_nat oh - 1)
            * float (Z.of_nat oh - 1)).
    + by apply Qcmult_le_mono_nonneg_l.
    + unfold Qcdiv.
      rewrite <-Qcmult_assoc, (Qcmult_comm (/ _)), Qcmult_inv_r, Qcmult_1_r
        by done.
      apply Qcle_refl.
  - rewrite Qcmult_0_l. split; [apply Qcle_refl | done].
Qed.

Lemma src_row_range (ih oh i : nat) :
  (1 ≤ ih)%nat → (i < oh)%nat →
  (Z.to_nat (int (src_index ih oh i)) ≤ ih - 1)%nat.
Proof.
  intros Hih Hi. destruct (src_index_range ih oh i Hih Hi) as [H0 H1].
  pose proof (int_nonneg _ H0). pose proof (int_le _ _ H0 H1). lia.
Qed.

Lemma fraction_range (x : Qc) :
  0 ≤ x →
  0 ≤ x - float (Z.of_nat (Z.to_nat (int x))) ∧
  x - float (Z.of_nat (Z.to_nat (int x))) ≤ 1.
Proof.
  intros Hx. pose proof (int_nonneg x Hx) as Hi.
  rewrite Z2Nat.id by done.
  assert (float (int x) ≤ x) as Hlo.
  { rewrite int_floor by done. exact (Qfloor_le (this x)). }
  assert (x ≤ float (int x) + 1) as Hhi.
  { apply Qclt_le_weak. unfold float.
    rewrite <-Z2Qc_inj_1, <-Z2Qc_inj_add, int_floor by done.
    exact (Qlt_floor (this x)). }
  split.
  - apply (Qcplus_le_mono_r _ _ (float (int x))).
    by replace (x - float (int x) + float (int x)) with x by ring;
      rewrite Qcplus_0_l.
  - apply (Qcplus_le_mono_r _ _ (float (int x))).
    replace (x - float (int x) + float (int x)) with x by ring.
    by rewrite (Qcplus_comm 1).
Qed.

(** A weighted mean of two values of an interval lies in the interval. *)
Lemma mean_range (a p r lo hi : Qc) :
  0 ≤ a → a ≤ 1 → lo ≤ p ∧ p ≤ hi → lo ≤ r ∧ r ≤ hi →
  lo ≤ (1 - a) * p + a * r ∧ (1 - a) * p + a * r ≤ hi.
Proof.
  intros Ha0 Ha1 [Hp0 Hp1] [Hr0 Hr1].
  assert (0 ≤ 1 - a) as Hb.
  { apply (Qcplus_le_mono_r _ _ a).
    replace (1 - a + a) with 1 by ring. by rewrite Qcplus_0_l. }
  split.
  - apply Qcle_trans with ((1 - a) * lo + a * lo).
    + replace ((1 - a) * lo + a * lo) with lo by ring. apply Qcle_refl.
    + apply Qcplus_le_compat; by apply Qcmult_le_mono_nonneg_l.
  - apply Qcle_trans with ((1 - a) * hi + a * hi).
    + apply Qcplus_le_compat; by apply Qcmult_le_mono_nonneg_l.
    + replace ((1 - a) * hi + a * hi) with hi by ring. apply Qcle_refl.
Qed.

Lemma pixel_in_range (ch : list (list Qc)) (ih iw a b : nat) (lo hi : Qc) :
  plane_shaped ih iw ch →
  Forall (Forall (λ p, lo ≤ p ∧ p ≤ hi)) ch →
  (a < ih)%nat → (b < iw)%nat →
  lo ≤ pixel ch a b ∧ pixel ch a b ≤ hi.
Proof.
  intros [Hh Hrows] Hin Ha Hb. unfold pixel.
  pose proof (proj1 (Forall_nth _ [] ch) Hrows a ltac:(lia)) as Hw.
  pose proof (proj1 (Forall_nth _ [] ch) Hin a ltac:(lia)) as Hrow.
  simpl in Hw.
  exact (proj1 (Forall_nth _ 0 _) Hrow b ltac:(lia)).
Qed.

Lemma bilinear_at_range (ch : list (list Qc)) (ih iw oh ow i j : nat) (lo hi : Qc) :
  plane_shaped ih iw ch →
  Forall (Forall (λ p, lo ≤ p ∧ p ≤ hi)) ch →
  (1 ≤ ih)%nat → (1 ≤ iw)%nat → (i < oh)%nat → (j < ow)%nat →
  lo ≤ bilinear_at ch ih iw oh ow i j ∧ bilinear_at ch ih iw oh ow i j ≤ hi.
Proof.
  intros Hch Hin Hih Hiw Hi Hj. unfold bilinear_at. cbv zeta.
  pose proof (src_row_range ih oh i Hih Hi) as Hh1.
  pose proof (src_row_range iw ow j Hiw Hj) as Hw1.
  destruct (fraction_range _ (proj1 (src_index_range ih oh i Hih Hi)))
    as [Hlh0 Hlh1].
  destruct (fraction_range _ (proj1 (src_index_range iw ow j Hiw Hj)))
    as [Hlw0 Hlw1].
  set (h1 := Z.to_nat (int (src_index ih oh i))) in *.
  set (w1 := Z.to_nat (int (src_index iw ow j))) in *.
  assert (h1 + (if (h1 <? ih - 1)%nat then 1 else 0) < ih)%nat as Hh1p
    by (destruct (Nat.ltb_spec h1 (ih - 1)); lia).
  assert (w1 + (if (w1 <? iw - 1)%nat then 1 else 0) < iw)%nat as Hw1p
    by (destruct (Nat.ltb_spec w1 (iw - 1)); lia).
  apply mean_range; [done..| |];
    (apply mean_range; [done..| |];
     apply (pixel_in_range ch ih iw); (done || lia)).
Qed.

Lemma index_hw_pixels_in t win lo hi :
  pixels_in lo hi t → pixels_in lo hi (index_hw t win).
Proof.
  destruct t as [[[[b c] h] w] d], win as [[[h0 h1] w0] w1].
  unfold pixels_in, index_hw; simpl. intros Hin.
  apply Forall_map. eapply Forall_impl; [exact Hin|].
  intros img Himg; simpl. apply Forall_map.
  eapply Forall_impl; [exact Himg|].
  intros ch Hch; simpl. apply Forall_map, Forall_slice.
  eapply Forall_impl; [exact Hch|].
  intros row Hrow; simpl. by apply Forall_slice.
Qed.

Lemma flip3_pixels_in t lo hi : pixels_in lo hi t → pixels_in lo hi (flip3 t).
Proof.
  unfold pixels_in, flip3; simpl. intros Hin.
  apply Forall_map. eapply Forall_impl; [exact Hin|].
  intros img Himg; simpl. apply Forall_map.
  eapply Forall_impl; [exact Himg|].
  intros ch Hch; simpl. apply Forall_map.
  eapply Forall_impl; [exact Hch|].
  intros row Hrow; simpl. by apply Forall_rev.
Qed.

Lemma resized_pixels_in t b c h w oh ow lo hi :
  well_shaped t → shape t = (b, c, h, w) → (1 ≤ h)%nat → (1 ≤ w)%nat →
  pixels_in lo hi t →
  pixels_in lo hi {| shape := (b, c, oh, ow);
                     data := map (map (resize_plane h w oh ow)) (data t) |}.
Proof.
  destruct t as [sh d]. unfold well_shaped, pixels_in; simpl.
  intros Hws -> Hh Hw Hin. destruct Hws as [_ Himgs].
  apply Forall_map.
  apply Forall_forall. intros img Himg.
  pose proof (proj1 (Forall_forall _ _) Himgs img Himg) as [_ Hchs].
  pose proof (proj1 (Forall_forall _ _) Hin img Himg) as Hinimg.
  simpl. apply Forall_map.
  apply Forall_forall. intros ch Hch.
  pose proof (proj1 (Forall_forall _ _) Hchs ch Hch) as Hshaped.
  pose proof (proj1 (Forall_forall _ _) Hinimg ch Hch) as Hinch.
  unfold resize_plane. apply Forall_map, Forall_forall.
  intros i Hi%elem_of_seq. simpl. apply Forall_map, Forall_forall.
  intros j Hj%elem_of_seq. simpl.
  apply (bilinear_at_range ch h w); (done || lia).
Qed.

End Range.

Section ForwardMore.
Import AugWrapper.
Local Open Scope Qc_scope.

Lemma flip3_well_shaped t : well_shaped t → well_shaped (flip3 t).
Proof.
  destruct t as [[[[b c] h] w] d]. unfold well_shaped, flip3; simpl.
  intros [Hb Himgs]. split; [by rewrite length_map|].
  apply Forall_map. eapply Forall_impl; [exact Himgs|].
  intros img [Hc Hchs]; simpl. split; [by rewrite length_map|].
  apply Forall_map. eapply Forall_impl; [exact Hchs|].
  intros ch [Hh Hrows]; simpl. split; [by rewrite length_map|].
  apply Forall_map. eapply Forall_impl; [exact Hrows|].
  intros row Hw; simpl. by rewrite length_rev.
Qed.

(** Either branch of [random_hflip]: one draw is consumed and the
    result holds the input or its flip. *)
Lemma random_hflip_run s tensor prob t :
  deref (heap s) tensor = Some t →
  ∃ y σ' t',
    random_hflip tensor prob s
    = (Ok y, {| heap := σ'; rng := λ k, rng s (S k) |}) ∧
    deref σ' y = Some t' ∧ (t' = t ∨ t' = flip3 t).
Proof.
  intros H. destruct (decide (rng s 0%nat < prob)) as [Hlt|Hge].
  - exists tensor, (heap s), t. split; [by apply random_hflip_keep|]. by split; [|left].
  - apply Qcnot_lt_le in Hge. eexists _, _, (flip3 t). split.
    + by apply (random_hflip_flip _ _ _ t).
    + split; [apply deref_fresh | by right].
Qed.

Lemma forward_augment_run (self : AugWrapper.t) s images detach :
  rng s 0%nat < prob self →
  forward self images detach s
  = (out <~ augment images ;; img <~ read out ;; lift (D self img))
      {| heap := heap s; rng := λ k, rng s (S k) |}.
Proof.
  intros Hu. unfold forward, bind at 1, np_random.
  destruct (decide _) as [_|Hn]; [reflexivity | done].
Qed.

(** The crop of a square batch whose crop side is at least 1. *)
Lemma crop_and_resize_shape_run s images img b c n scale :
  deref (heap s) images = Some img →
  well_shaped img → shape img = (b, c, n, n) → (1 ≤ c)%nat → (1 ≤ n)%nat →
  0 < scale → scale < 1 →
  (1 ≤ int (float (Z.of_nat n) * scale))%Z →
  0 ≤ rng s 0%nat → rng s 0%nat < 1 → 0 ≤ rng s 1%nat → rng s 1%nat < 1 →
  ∃ out σ' r,
    random_crop_and_resize images scale s
    = (Ok out, {| heap := σ'; rng := λ k, rng s (S (S k)) |}) ∧
    deref σ' out = Some r ∧ shape r = (b, c, n, n) ∧ well_shaped r ∧
    ∀ lo hi, pixels_in lo hi img → pixels_in lo hi r.
Proof.
  intros H Hws Hs Hc Hn Hs0 Hs1 Hnew Hu0 Hu0' Hu1 Hu1'.
  pose proof (width_shape _ _ _ _ _ Hs) as Hw.
  pose proof (new_size_below n scale Hn Hs0 Hs1) as Hlt.
  set (new_size := int (float (Z.of_nat n) * scale)) in *.
  set (dsize := (Z.of_nat n - new_size)%Z).
  assert (1 ≤ dsize)%Z as Hd by (unfold dsize; lia).
  pose proof (int_scaled_draw _ dsize Hu0 Hu0' Hd) as Hh0.
  pose proof (int_scaled_draw _ dsize Hu1 Hu1' Hd) as Hw0.
  set (win := window_of n scale (rng s 0%nat) (rng s 1%nat)).
  assert (shape (index_hw img win)
          = (b, c, Z.to_nat new_size, Z.to_nat new_size)) as Hcs.
  { unfold win, window_of. fold new_size. fold dsize.
    rewrite (index_hw_shape img b c n n) by done.
    rewrite !slice_len_in by (unfold dsize in *; lia).
    do 2 f_equal; f_equal; lia. }
  eexists _, _, _. split; [|split; [|split; [|split]]].
  - apply (random_crop_and_resize_run s images img scale); [done|].
    rewrite Hw. fold win. apply interpolate_ok; [done|lia..].
  - apply deref_fresh.
  - done.
  - apply (resized_well_shaped (index_hw img win)); [|done].
    by apply index_hw_well_shaped.
  - intros lo hi Hin.
    apply (resized_pixels_in (index_hw img win)); [|done|lia|lia|].
    + by apply index_hw_well_shaped.
    + by apply index_hw_pixels_in.
Qed.

(** The scale drawn by [forward] keeps at least one pixel of a side of
    two or more. *)
Lemma uniform_new_size (n : nat) (u : Qc) :
  (2 ≤ n)%nat → 0 ≤ u → u < 1 →
  (1 ≤ int (float (Z.of_nat n)
            * (Q2Qc (3 # 4) + (Q2Qc (19 # 20) - Q2Qc (3 # 4)) * u)))%Z.
Proof.
  intros Hn Hu0 Hu1. destruct (uniform_scale_range u Hu0 Hu1) as [Hlo _].
  set (scale := Q2Qc (3 # 4) + (Q2Qc (19 # 20) - Q2Qc (3 # 4)) * u) in *.
  assert (0 ≤ scale) as Hs0
    by (apply Qcle_trans with (Q2Qc (3 # 4)); [by vm_compute | done]).
  assert (float 2 ≤ float (Z.of_nat n)) as Hn2
    by (unfold float; exact (proj1 (Z2Qc_inj_le 2 (Z.of_nat n)) ltac:(lia))).
  assert (0 ≤ float (Z.of_nat n)) as Hfn by (apply float_nonneg; lia).
  apply int_ge; [by apply Qcmult_nonneg_nonneg|].
  apply Qcle_trans with (float 2 * Q2Qc (3 # 4)); [by vm_compute|].
  apply Qcle_trans with (float 2 * scale).
  - apply Qcmult_le_mono_nonneg_l; [by vm_compute | done].
  - by apply Qcmult_le_mono_nonneg_r.
Qed.

Lemma augment_run s images img b c n :
  deref (heap s) images = Some img →
  well_shaped img → shape img = (b, c, n, n) → (1 ≤ c)%nat → (2 ≤ n)%nat →
  (∀ k, 0 ≤ rng s k ∧ rng s k < 1) →
  ∃ out σ' aug,
    augment images s
    = (Ok out, {| heap := σ'; rng := λ k, rng s (S (S (S (S k)))) |}) ∧
    deref σ' out = Some aug ∧ shape aug = (b, c, n, n) ∧ well_shaped aug ∧
    ∀ lo hi, pixels_in lo hi img → pixels_in lo hi aug.
Proof.
  intros H Hws Hs Hc Hn Hu.
  destruct (uniform_scale_range (rng s 0%nat)) as [Hlo Hhi]; [apply Hu..|].
  pose proof (uniform_new_size n (rng s 0%nat) Hn (proj1 (Hu _)) (proj2 (Hu _)))
    as Hnew.
  set (scale := Q2Qc (3 # 4) + (Q2Qc (19 # 20) - Q2Qc (3 # 4)) * rng s 0%nat)
    in *.
  set (s1 := {| heap := heap s; rng := λ k, rng s (S k) |}).
  destruct (random_hflip_run s1 images (Q2Qc (1 # 2)) img H)
    as (y & σ' & t' & Hflip & Hy & Ht').
  assert (well_shaped t' ∧ shape t' = (b, c, n, n) ∧
          ∀ lo hi, pixels_in lo hi img → pixels_in lo hi t')
    as (Hws' & Hs' & Hin').
  { destruct Ht' as [->| ->]; [done|].
    split; [by apply flip3_well_shaped|]. split; [done|].
    intros lo hi. apply flip3_pixels_in. }
  set (s2 := {| heap := σ'; rng := λ k, rng s1 (S k) |}) in *.
  destruct (crop_and_resize_shape_run s2 y t' b c n scale)
    as (out & σ'' & r & Hcrop & Hout & Hr & Hwr & Hinr); try done.
  - lia.
  - apply Qclt_le_trans with (Q2Qc (3 # 4)); [by vm_compute | done].
  - apply Qclt_trans with (Q2Qc (19 # 20)); [done | by vm_compute].
  - apply Hu.
  - apply Hu.
  - apply Hu.
  - apply Hu.
  - exists out, σ'', r. split; [|repeat split; auto].
    unfold augment, bind at 1, np_uniform, bind at 1, np_random, ret.
    fold s1. fold scale. unfold bind at 1. rewrite Hflip. exact Hcrop.
Qed.

(** X11: when the first draw is below [prob], on a batch with at least
    one channel and of square side [n >= 2], [forward] consumes five
    draws and returns the scores of the wrapped discriminator on a
    tensor that has the shape of the input: the discriminator never
    sees another size. *)
Theorem forward_augmented_keeps_shape
    (self : AugWrapper.t) (images : handle) (detach : bool) (s : State)
    (img : Tensor) (b c n : nat) :
  deref (heap s) images = Some img →
  well_shaped img → shape img = (b, c, n, n) → (1 ≤ c)%nat → (2 ≤ n)%nat →
  (∀ k, 0 ≤ rng s k ∧ rng s k < 1) →
  rng s 0%nat < prob self →
  ∃ aug s',
    forward self images detach s = (D self aug, s') ∧
    shape aug = (b, c, n, n) ∧ well_shaped aug ∧
    ∀ k, rng s' k = rng s (5 + k)%nat.
Proof.
  intros H Hws Hs Hc Hn Hu Hgate.
  rewrite forward_augment_run by done.
  set (s1 := {| heap := heap s; rng := λ k, rng s (S k) |}).
  destruct (augment_run s1 images img b c n)
    as (out & σ' & aug & Hrun & Hout & Hr & Hwr & _); try done.
  { intros k. apply Hu. }
  exists aug, {| heap := σ'; rng := λ k, rng s1 (S (S (S (S k)))) |}.
  split; [|done].
  unfold bind at 1. rewrite Hrun. unfold bind, lift.
  by rewrite (read_run _ _ aug).
Qed.

Lemma forward_augmented_keeps_shape_witness :
  ∃ aug s',
    forward (__init__ sum_pixels 128 (q 1 2)) input1 false
      (state1 grid4 (q 1 4)) = (D (__init__ sum_pixels 128 (q 1 2)) aug, s') ∧
    shape aug = (1, 1, 4, 4)%nat ∧ well_shaped aug ∧
    ∀ k, rng s' k = rng (state1 grid4 (q 1 4)) (5 + k)%nat.
Proof.
  apply (forward_augmented_keeps_shape (__init__ sum_pixels 128 (q 1 2)) input1
           false (state1 grid4 (q 1 4)) grid4 1 1 4).
  - reflexivity.
  - repeat constructor.
  - reflexivity.
  - lia.
  - lia.
  - intros k. split; by vm_compute.
  - by vm_compute.
Defined.

(** X16: the augmentation keeps the range of the pixels: when the
    first draw is below [prob] and every pixel of the batch lies in
    [lo, hi], the tensor given to the discriminator has the shape of
    the batch and all its pixels lie in [lo, hi]. *)
Theorem forward_augmented_keeps_range
    (self : AugWrapper.t) (images : handle) (detach : bool) (s : State)
    (img : Tensor) (b c n : nat) (lo hi : Qc) :
  deref (heap s) images = Some img →
  well_shaped img → shape img = (b, c, n, n) → (1 ≤ c)%nat → (2 ≤ n)%nat →
  pixels_in lo hi img →
  (∀ k, 0 ≤ rng s k ∧ rng s k < 1) →
  rng s 0%nat < prob self →
  ∃ aug s',
    forward self images detach s = (D self aug, s') ∧
    shape aug = (b, c, n, n) ∧ pixels_in lo hi aug.
Proof.
  intros H Hws Hs Hc Hn Hin Hu Hgate.
  rewrite forward_augment_run by done.
  set (s1 := {| heap := heap s; rng := λ k, rng s (S k) |}).
  destruct (augment_run s1 images img b c n)
    as (out & σ' & aug & Hrun & Hout & Hr & _ & Hinr); try done.
  { intros k. apply Hu. }
  exists aug, {| heap := σ'; rng := λ k, rng s1 (S (S (S (S k)))) |}.
  split; [|by auto].
  unfold bind at 1. rewrite Hrun. unfold bind, lift.
  by rewrite (read_run _ _ aug).
Qed.

Lemma forward_augmented_keeps_range_witness :
  ∃ aug s',
    forward (__init__ sum_pixels 128 (q 1 2)) input1 false
      (state1 grid4 (q 1 4)) = (D (__init__ sum_pixels 128 (q 1 2)) aug, s') ∧
    shape aug = (1, 1, 4, 4)%nat ∧ pixels_in 0 (q 15 1) aug.
Proof.
  apply (forward_augmented_keeps_range (__init__ sum_pixels 128 (q 1 2)) input1
           false (state1 grid4 (q 1 4)) grid4 1 1 4 0 (q 15 1)).
  - reflexivity.
  - repeat constructor.
  - reflexivity.
  - lia.
  - lia.
  - repeat constructor; by vm_compute.
  - intros k. split; by vm_compute.
  - by vm_compute.
Defined.

(** X12: on a batch of side 1 the augmentation cannot keep a pixel:
    when the first draw is below [prob], [forward] raises
    [RuntimeError] and the discriminator is not called. *)
Theorem forward_augmented_side_one_raises
    (self : AugWrapper.t) (images : handle) (detach : bool) (s : State)
    (img : Tensor) (b c : nat) :
  deref (heap s) images = Some img → shape img = (b, c, 1, 1)%nat →
  0 ≤ rng s 1%nat → rng s 1%nat < 1 →
  rng s 0%nat < prob self →
  fst (forward self images detach s) = Raise RuntimeError.
Proof.
  intros H Hs Hu0 Hu1 Hgate.
  rewrite forward_augment_run by done.
  set (s1 := {| heap := heap s; rng := λ k, rng s (S k) |}).
  destruct (uniform_scale_range (rng s 1%nat) Hu0 Hu1) as [Hlo Hhi].
  set (scale := Q2Qc (3 # 4) + (Q2Qc (19 # 20) - Q2Qc (3 # 4)) * rng s 1%nat)
    in *.
  destruct (random_hflip_run {| heap := heap s1; rng := λ k, rng s1 (S k) |}
              images (Q2Qc (1 # 2)) img H)
    as (y & σ' & t' & Hflip & Hy & Ht').
  assert (width t' = 1%nat) as Hw'.
  { apply (width_shape t' b c 1). by destruct Ht' as [->| ->]. }
  assert (int (float (Z.of_nat (width t')) * scale) = 0%Z) as Hnew.
  { rewrite Hw'.
    pose proof (new_size_below 1 scale ltac:(lia)) as Hb.
    destruct Hb; [| |lia].
    - apply Qclt_le_trans with (Q2Qc (3 # 4)); [by vm_compute | done].
    - apply Qclt_trans with (Q2Qc (19 # 20)); [done | by vm_compute]. }
  unfold bind at 1, augment, bind at 1, np_uniform, bind at 1, np_random, ret.
  unfold bind at 1. rewrite Hflip.
  change (Q2Qc (3 # 4) + (Q2Qc (19 # 20) - Q2Qc (3 # 4)) * rng s1 0%nat)
    with scale.
  match goal with
  | |- context [random_crop_and_resize y scale ?st] =>
      pose proof (empty_crop_run st y t' scale Hy Hnew)
        as Hraise;
      destruct (random_crop_and_resize y scale st) as [[out|e] s3]
  end; simpl in Hraise; [done|]. by injection Hraise as ->.
Qed.

Lemma forward_augmented_side_one_raises_witness :
  fst (forward (__init__ sum_pixels 128 (q 1 2)) input1 false
         (state1 pixel1 (q 1 4))) = Raise RuntimeError.
Proof.
  apply (forward_augmented_side_one_raises (__init__ sum_pixels 128 (q 1 2))
           input1 false (state1 pixel1 (q 1 4)) pixel1 1 1).
  - reflexivity.
  - reflexivity.
  - by vm_compute.
  - by vm_compute.
  - by vm_compute.
Defined.

(** X13: when the first draw is not below [prob], [forward] returns the
    scores of the wrapped discriminator on the batch as it is, consumes
    that one draw and allocates nothing; for [prob <= 0] this is every
    call. *)
Theorem forward_gate_closed
    (self : AugWrapper.t) (images : handle) (detach : bool) (s : State)
    (t : Tensor) :
  deref (heap s) images = Some t → prob self ≤ rng s 0%nat →
  forward self images detach s
  = (D self t, {| heap := heap s; rng := λ k, rng s (S k) |}).
Proof. apply forward_pass_through. Qed.

Lemma forward_gate_closed_witness :
  forward (__init__ sum_pixels 128 (q 1 2)) input1 false (state1 grid4 (q 3 4))
  = (D (__init__ sum_pixels 128 (q 1 2)) grid4,
     {| heap := heap (state1 grid4 (q 3 4));
        rng := λ k, rng (state1 grid4 (q 3 4)) (S k) |}).
Proof.
  apply (forward_gate_closed (__init__ sum_pixels 128 (q 1 2)) input1 false
           (state1 grid4 (q 3 4)) grid4).
  - reflexivity.
  - by vm_compute.
Defined.

End ForwardMore.

(** ** The flip mirrors the columns *)

Section Mirror.
Import AugWrapper.
Local Open Scope Qc_scope.

Lemma nth_map_nil {A B} (g : A → B) (l : list (list A)) (k : nat) :
  nth k (map (map g) l) [] = map g (nth k l []).
Proof. exact (map_nth (map g) l [] k). Qed.

Lemma well_shaped_plane t b c h w ib ic :
  well_shaped t → shape t = (b, c, h, w) → (ib < b)%nat → (ic < c)%nat →
  plane_shaped h w (nth ic (nth ib (data t) []) []).
Proof.
  intros Hws Hs Hib Hic. unfold well_shaped in Hws. rewrite Hs in Hws.
  destruct Hws as [Hb Himgs].
  pose proof (proj1 (Forall_nth _ [] (data t)) Himgs ib ltac:(lia)) as [Hc Hchs].
  exact (proj1 (Forall_nth _ [] _) Hchs ic ltac:(lia)).
Qed.

Lemma pixel_at_flip3 t b c h w ib ic i j :
  well_shaped t → shape t = (b, c, h, w) →
  (ib < b)%nat → (ic < c)%nat → (i < h)%nat → (j < w)%nat →
  pixel_at (flip3 t) ib ic i j = pixel_at t ib ic i (w - 1 - j).
Proof.
  intros Hws Hs Hib Hic Hi Hj.
  destruct (well_shaped_plane t b c h w ib ic Hws Hs Hib Hic) as [Hh Hrows].
  pose proof (proj1 (Forall_nth _ [] _) Hrows i ltac:(lia)) as Hw.
  simpl in Hw.
  unfold pixel_at, flip3, pixel; simpl.
  rewrite (nth_map_nil (map (@rev Qc))), (nth_map_nil (@rev Qc)).
  rewrite (map_nth (@rev Qc) _ [] i).
  rewrite rev_nth by lia. rewrite Hw. f_equal. lia.
Qed.

(** X14: in the flip branch the result has the shape of the input and
    its pixel in column [j] is the pixel of the input in column
    [w - 1 - j] of the same image, channel and row. *)
Theorem random_hflip_mirrors_columns
    (s : State) (tensor : handle) (prob : Qc) (t : Tensor) (b c h w : nat) :
  deref (heap s) tensor = Some t →
  well_shaped t → shape t = (b, c, h, w) →
  prob ≤ rng s 0%nat →
  ∃ y s' t',
    random_hflip tensor prob s = (Ok y, s') ∧
    deref (heap s') y = Some t' ∧ shape t' = (b, c, h, w) ∧
    ∀ ib ic i j, (ib < b)%nat → (ic < c)%nat → (i < h)%nat → (j < w)%nat →
      pixel_at t' ib ic i j = pixel_at t ib ic i (w - 1 - j).
Proof.
  intros H Hws Hs Hu. eexists _, _, (flip3 t). split; [|split; [|split]].
  - by apply (random_hflip_flip _ _ _ t).
  - apply deref_fresh.
  - done.
  - intros ib ic i j Hib Hic Hi Hj. by apply (pixel_at_flip3 t b c h w).
Qed.

Lemma random_hflip_mirrors_columns_witness :
  ∃ y s' t',
    random_hflip input1 (q 1 2) (state1 grid4 (q 3 4)) = (Ok y, s') ∧
    deref (heap s') y = Some t' ∧ shape t' = (1, 1, 4, 4)%nat ∧
    ∀ ib ic i j, (ib < 1)%nat → (ic < 1)%nat → (i < 4)%nat → (j < 4)%nat →
      pixel_at t' ib ic i j = pixel_at grid4 ib ic i (4 - 1 - j).
Proof.
  apply (random_hflip_mirrors_columns (state1 grid4 (q 3 4)) input1 (q 1 2)
           grid4 1 1 4 4).
  - reflexivity.
  - repeat constructor.
  - reflexivity.
  - by vm_compute.
Defined.

End Mirror.

(** ** Constant batches *)

Section Constant.
Import AugWrapper.
Local Open Scope Qc_scope.

Lemma map_replicate {A B} (f : A → B) (n : nat) (x : A) :
  map f (replicate n x) = replicate n (f x).
Proof. induction n as [|n IH]; simpl; [done | by rewrite IH]. Qed.

Lemma rev_replicate {A} (n : nat) (x : A) : rev (replicate n x) = replicate n x.
Proof.
  induction n as [|n IH]; simpl; [done|].
  by rewrite IH, <-replicate_cons_app.
Qed.

Lemma map_seq_const {A} (f : nat → A) (x : A) (a n : nat) :
  (∀ i, (a ≤ i < a + n)%nat → f i = x) → map f (seq a n) = replicate n x.
Proof.
  revert a. induction n as [|n IH]; intros a Hf; simpl; [done|].
  rewrite Hf by lia. f_equal. apply IH. intros i Hi. apply Hf. lia.
Qed.

Lemma slice_replicate {A} (a b : Z) (n : nat) (x : A) :
  slice a b (replicate n x) = replicate (slice_len (Z.of_nat n) a b) x.
Proof.
  unfold slice. rewrite length_replicate, drop_replicate, take_replicate.
  f_equal.
  pose proof (slice_bound_range (Z.of_nat n) a ltac:(lia)).
  pose proof (slice_bound_range (Z.of_nat n) b ltac:(lia)).
  unfold slice_len. lia.
Qed.

Lemma pixel_replicate (ih iw a b : nat) (v : Qc) :
  (a < ih)%nat → (b < iw)%nat →
  pixel (replicate ih (replicate iw v)) a b = v.
Proof.
  intros Ha Hb. unfold pixel.
  rewrite (nth_lookup_Some _ a [] (replicate iw v))
    by (by apply lookup_replicate_2).
  by rewrite (nth_lookup_Some _ b 0 v) by (by apply lookup_replicate_2).
Qed.

(** Interpolating a constant plane gives the constant. *)
Lemma bilinear_at_const (ih iw oh ow i j : nat) (v : Qc) :
  (1 ≤ ih)%nat → (1 ≤ iw)%nat → (i < oh)%nat → (j < ow)%nat →
  bilinear_at (replicate ih (replicate iw v)) ih iw oh ow i j = v.
Proof.
  intros Hih Hiw Hi Hj. unfold bilinear_at. cbv zeta.
  pose proof (src_row_range ih oh i Hih Hi) as Hh1.
  pose proof (src_row_range iw ow j Hiw Hj) as Hw1.
  set (h1 := Z.to_nat (int (src_index ih oh i))) in *.
  set (w1 := Z.to_nat (int (src_index iw ow j))) in *.
  assert (h1 + (if (h1 <? ih - 1)%nat then 1 else 0) < ih)%nat as Hh1p
    by (destruct (Nat.ltb_spec h1 (ih - 1)); lia).
  assert (w1 + (if (w1 <? iw - 1)%nat then 1 else 0) < iw)%nat as Hw1p
    by (destruct (Nat.ltb_spec w1 (iw - 1)); lia).
  rewrite !pixel_replicate by lia. ring.
Qed.

Lemma resize_plane_const (ih iw oh ow : nat) (v : Qc) :
  (1 ≤ ih)%nat → (1 ≤ iw)%nat →
  resize_plane ih iw oh ow (replicate ih (replicate iw v))
  = replicate oh (replicate ow v).
Proof.
  intros Hih Hiw. unfold resize_plane.
  apply map_seq_const. intros i Hi.
  apply map_seq_const. intros j Hj.
  apply bilinear_at_const; lia.
Qed.

Lemma interpolate_full (b c h w oh ow : nat) (v : Qc) :
  (1 ≤ c)%nat → (1 ≤ h)%nat → (1 ≤ w)%nat → (1 ≤ oh)%nat → (1 ≤ ow)%nat →
  interpolate (full b c h w v) oh ow = Ok (full b c oh ow v).
Proof.
  intros Hc Hh Hw Hoh How.
  rewrite (interpolate_ok _ b c h w) by (done || lia).
  unfold full; simpl. by rewrite !map_replicate, resize_plane_const.
Qed.

Lemma index_hw_const (b c h w : nat) (v : Qc) (h0 h1 w0 w1 : Z) :
  index_hw (full b c h w v) (h0, h1, w0, w1)
  = full b c (slice_len (Z.of_nat h) h0 h1) (slice_len (Z.of_nat w) w0 w1) v.
Proof.
  unfold index_hw, full; simpl.
  by rewrite !map_replicate, slice_replicate, map_replicate, slice_replicate.
Qed.

Lemma flip3_full (b c h w : nat) (v : Qc) : flip3 (full b c h w v) = full b c h w v.
Proof. unfold flip3, full; simpl. by rewrite !map_replicate, rev_replicate. Qed.

Lemma random_crop_and_resize_const s images b c n v scale :
  deref (heap s) images = Some (full b c n n v) →
  (1 ≤ c)%nat → (1 ≤ n)%nat → 0 < scale → scale < 1 →
  (1 ≤ int (float (Z.of_nat n) * scale))%Z →
  0 ≤ rng s 0%nat → rng s 0%nat < 1 → 0 ≤ rng s 1%nat → rng s 1%nat < 1 →
  ∃ out s',
    random_crop_and_resize images scale s = (Ok out, s') ∧
    deref (heap s') out = Some (full b c n n v).
Proof.
  intros H Hc Hn Hs0 Hs1 Hnew Hu0 Hu0' Hu1 Hu1'.
  pose proof (new_size_below n scale Hn Hs0 Hs1) as Hlt.
  apply (random_crop_and_resize_ok s images (full b c n n v) scale); [done|].
  change (width (full b c n n v)) with n. unfold window_of.
  set (new_size := int (float (Z.of_nat n) * scale)) in *.
  set (dsize := (Z.of_nat n - new_size)%Z).
  assert (1 ≤ dsize)%Z as Hd by (unfold dsize; lia).
  pose proof (int_scaled_draw _ dsize Hu0 Hu0' Hd) as Hh0.
  pose proof (int_scaled_draw _ dsize Hu1 Hu1' Hd) as Hw0.
  rewrite index_hw_const.
  rewrite !slice_len_in by (unfold dsize in *; lia).
  apply interpolate_full; lia.
Qed.

(** X15: on a batch whose pixels all have the same value, with at least
    one channel and a square side of 2 or more, the augmentation changes
    nothing: [forward] returns the scores of the wrapped discriminator
    on the batch itself, for every [prob] and all draws. *)
Theorem forward_constant_batch
    (self : AugWrapper.t) (images : handle) (detach : bool) (s : State)
    (b c n : nat) (v : Qc) :
  deref (heap s) images = Some (full b c n n v) →
  (1 ≤ c)%nat → (2 ≤ n)%nat →
  (∀ k, 0 ≤ rng s k ∧ rng s k < 1) →
  fst (forward self images detach s) = D self (full b c n n v).
Proof.
  intros H Hc Hn Hu.
  destruct (decide (rng s 0%nat < prob self)) as [Hgate|Hgate].
  - rewrite forward_augment_run by done.
    set (s1 := {| heap := heap s; rng := λ k, rng s (S k) |}).
    destruct (uniform_scale_range (rng s 1%nat)) as [Hlo Hhi]; [apply Hu..|].
    pose proof (uniform_new_size n (rng s 1%nat) Hn (proj1 (Hu _))
                  (proj2 (Hu _))) as Hnew.
    set (scale := Q2Qc (3 # 4) + (Q2Qc (19 # 20) - Q2Qc (3 # 4)) * rng s 1%nat)
      in *.
    destruct (random_hflip_run {| heap := heap s1; rng := λ k, rng s1 (S k) |}
                images (Q2Qc (1 # 2)) (full b c n n v) H)
      as (y & σ' & t' & Hflip & Hy & Ht').
    assert (t' = full b c n n v) as ->
      by (destruct Ht' as [->| ->]; [done | apply flip3_full]).
    unfold bind at 1, augment, bind at 1, np_uniform, bind at 1, np_random, ret.
    unfold bind at 1. rewrite Hflip.
    change (Q2Qc (3 # 4) + (Q2Qc (19 # 20) - Q2Qc (3 # 4)) * rng s1 0%nat)
      with scale.
    match goal with
    | |- context [random_crop_and_resize y scale ?st] =>
        destruct (random_crop_and_resize_const st y b c n v scale)
          as (out & s3 & Hcrop & Hout)
    end; try done.
    + lia.
    + apply Qclt_le_trans with (Q2Qc (3 # 4)); [by vm_compute | done].
    + apply Qclt_trans with (Q2Qc (19 # 20)); [done | by vm_compute].
    + apply Hu.
    + apply Hu.
    + apply Hu.
    + apply Hu.
    + rewrite Hcrop. unfold bind, lift.
      by rewrite (read_run _ _ (full b c n n v)).
  - apply Qcnot_lt_le in Hgate.
    by rewrite (forward_pass_through self s images detach (full b c n n v)).
Qed.

Lemma forward_constant_batch_witness :
  fst (forward (__init__ sum_pixels 128 1) input1 false
         (state1 (full 2 3 4 4 (q 1 3)) (q 1 4)))
  = D (__init__ sum_pixels 128 1) (full 2 3 4 4 (q 1 3)).
Proof.
  apply (forward_constant_batch (__init__ sum_pixels 128 1) input1 false
           (state1 (full 2 3 4 4 (q 1 3)) (q 1 4)) 2 3 4 (q 1 3)).
  - reflexivity.
  - lia.
  - lia.
  - intros k. split; by vm_compute.
Defined.

End Constant.

(** ** The corners of the crop *)

Section Corners.
Import AugWrapper.
Local Open Scope Qc_scope.












End Corners.
